(** * Filesystem API server: path resolution, metadata, listing, content
      and mutation operations of [main.py], embedded and verified.

    The embedding follows [main.py] function by function ([safe_path],
    [get_file_info], [list_directory], [read_file], [write_file],
    [delete_file_or_directory], [copy_file_or_directory]).  The Python
    library calls those functions make ([urllib.parse.unquote],
    [str.lstrip], [pathlib], [os], [shutil]) are embedded next to them, after
    CPython 3.11 on POSIX.

    Conventions.
    - A Python [str] used as a path is a Rocq [string]: the bytes of its
      UTF-8 form.  Splitting on the separator, the tests against [.] and
      [..], the search for a NUL and the order of names are the same on
      code points and on UTF-8 bytes.
    - File contents are lists of bytes (integers below 256); text is a list
      of code points.
    - The filesystem is a tree of directories, regular files and symbolic
      links.  Access rights are not checked (the server runs with access to
      its tree), special files and mount points are absent, and directory
      timestamps are not bumped when entries come and go.
    - Rendering a timestamp as ISO-8601 text depends on floating point and
      on the local time zone; the descriptor carries the raw [st_mtime]. *)

From Stdlib Require Import ZArith Lia Ascii String.
From stdpp Require Import base option list strings gmap sorting.

Set Warnings "-register-all".
#[local] Open Scope Z_scope.

(** ** Exceptions and results *)

Inductive errno :=
  ENOENT | ENOTDIR | EISDIR | EEXIST | ELOOP | EBUSY | EINVAL.

(** The Python exceptions the server can meet.  [OSError] stands for the
    class and its subclasses ([FileNotFoundError], [IsADirectoryError],
    [PermissionError], ...); [ShutilError] is [shutil.Error] and
    [shutil.SameFileError], both subclasses of [OSError]. *)
Inductive py_exn :=
| OSError (e : errno)
| ShutilError
| ValueError
| UnicodeDecodeError
| UnicodeEncodeError
| LookupError
| RuntimeError
| RecursionError.

#[global] Instance errno_eq_dec : EqDecision errno.
Proof. solve_decision. Defined.
#[global] Instance py_exn_eq_dec : EqDecision py_exn.
Proof. solve_decision. Defined.

Definition is_OSError (e : py_exn) : bool :=
  match e with OSError _ | ShutilError => true | _ => false end.

(** [detail] of an [HTTPException]: a fixed text, or a text that embeds
    [str(e)] of the exception that caused it. *)
Inductive detail_text :=
| Msg (s : string)
| MsgExn (s : string) (e : py_exn).

Record HTTPException := mkHTTP { status_code : Z; detail : detail_text }.

Inductive raised :=
| Http (h : HTTPException)
| Py (e : py_exn).

(** A computation that returns or raises: [E + A], with [E] the exceptions
    it may raise. *)
#[global] Instance sum_ret {E} : MRet (sum E) := λ A a, inr a.
#[global] Instance sum_bind {E} : MBind (sum E) := λ A B k m,
  match m with inl r => inl r | inr a => k a end.

Abbreviation result := (sum raised).

Definition raise {A} (r : raised) : result A := inl r.

(** [try: ... except Exception as e: h e], for a body that raises no
    [HTTPException] of its own. *)
Definition lift {A} (m : py_exn + A) : result A :=
  match m with inl e => inl (Py e) | inr a => inr a end.

(** The two handlers that close every endpoint:
    [except HTTPException: raise] and
    [except Exception as e: raise HTTPException(500, ...)]. *)
Definition reraise {A} (fmt : py_exn → detail_text) (m : result A)
  : HTTPException + A :=
  match m with
  | inl (Http h) => inl h
  | inl (Py e) => inl (mkHTTP 500 (fmt e))
  | inr a => inr a
  end.

(** ** Strings *)

Definition SEP : ascii := "/"%char.
Definition NUL : ascii := "000"%char.

Fixpoint lstrip (c : ascii) (s : string) : string :=
  match s with
  | String a r => if decide (a = c) then lstrip c r else s
  | EmptyString => EmptyString
  end.

Definition startswith (c : ascii) (s : string) : bool :=
  match s with String a _ => bool_decide (a = c) | EmptyString => false end.

(** [s.split(c)]: never empty, one more field than separators. *)
Fixpoint split (c : ascii) (s : string) : list string :=
  match s with
  | EmptyString => [EmptyString]
  | String a r =>
      if decide (a = c) then EmptyString :: split c r
      else match split c r with
           | h :: t => String a h :: t
           | [] => [String a EmptyString]
           end
  end.

Fixpoint contains (c : ascii) (s : string) : bool :=
  match s with
  | EmptyString => false
  | String a r => bool_decide (a = c) || contains c r
  end.

Definition hexval (c : ascii) : option N :=
  let n := N_of_ascii c in
  if ((48 <=? n) && (n <=? 57))%N then Some (n - 48)%N
  else if ((65 <=? n) && (n <=? 70))%N then Some (n - 55)%N
  else if ((97 <=? n) && (n <=? 102))%N then Some (n - 87)%N
  else None.

(** [urllib.parse.unquote]: every [%XY] with two hexadecimal digits becomes
    the byte [0xXY]; a [%] not followed by two hexadecimal digits stays.
    One pass: a byte produced by an escape is never read again.  (CPython
    then decodes the bytes of the escapes as UTF-8 and puts U+FFFD for
    ill-formed sequences; that replacement touches no ASCII byte and is not
    modelled.) *)
Fixpoint unquote (s : string) : string :=
  match s with
  | EmptyString => EmptyString
  | String a r =>
      if decide (a = "%"%char) then
        match r with
        | String h (String l r') =>
            match hexval h, hexval l with
            | Some x, Some y => String (ascii_of_N (16 * x + y)) (unquote r')
            | _, _ => String a (unquote r)
            end
        | _ => String a (unquote r)
        end
      else String a (unquote r)
  end.

(** ** pathlib: pure paths *)

(** A [PurePosixPath]: whether it has the root, and its components after the
    root.  Parsing drops empty components and [.], and keeps [..]. *)
Record Path := mkPath { is_absolute : bool; parts : list string }.

#[global] Instance Path_eq_dec : EqDecision Path.
Proof. solve_decision. Defined.

Definition is_real_part (x : string) : bool :=
  negb (bool_decide (x = "")) && negb (bool_decide (x = ".")).

Definition parse_parts (s : string) : list string :=
  filter (λ x, is_real_part x = true) (split SEP s).

(** [Path(s)] *)
Definition path_of (s : string) : Path :=
  mkPath (startswith SEP s) (parse_parts s).

(** [p / s]: an absolute right operand replaces the left one. *)
Definition truediv (p : Path) (s : string) : Path :=
  if startswith SEP s then path_of s
  else mkPath (is_absolute p) (parts p ++ parse_parts s).

(** [abs_parts] of [relative_to]: the root counts as a component. *)
Definition abs_parts (p : Path) : list string :=
  if is_absolute p then "/" :: parts p else parts p.

(** [self.relative_to(other)]: [other]'s components must open [self]'s;
    [ValueError] otherwise. *)
Definition relative_to (self other : Path) : py_exn + Path :=
  let n := length (abs_parts other) in
  if (if decide (n = 0%nat) then is_absolute self
      else negb (bool_decide (take n (abs_parts self) = abs_parts other)))
  then inl ValueError
  else inr (mkPath false (drop n (abs_parts self))).

(** [p.parent]: the last component dropped; the root and the empty path are
    their own parents. *)
Definition parent (p : Path) : Path :=
  mkPath (is_absolute p) (removelast (parts p)).

(** [p.name] *)
Definition path_name (p : Path) : string := List.last (parts p) "".

Fixpoint join_with (c : string) (l : list string) : string :=
  match l with
  | [] => ""
  | [x] => x
  | x :: r => x +:+ c +:+ join_with c r
  end.

(** [str(p)] *)
Definition str (p : Path) : string :=
  if is_absolute p then "/" +:+ join_with "/" (parts p)
  else match parts p with [] => "." | l => join_with "/" l end.

(** ** The filesystem *)

Inductive node :=
| File (st_perm : Z) (mtime : Z) (data : list Z)
| Dir (st_perm : Z) (mtime : Z) (entries : gmap string node)
| Symlink (target : string).

(** A position in the tree: the names from the root directory down. *)
Definition location := list string.

Fixpoint get (fs : node) (loc : location) : option node :=
  match loc with
  | [] => Some fs
  | c :: r =>
      match fs with
      | Dir _ _ es => match es !! c with Some m => get m r | None => None end
      | _ => None
      end
  end.

(** [put fs loc v]: [v] at [loc], whose parent must be a directory. *)
Fixpoint put (fs : node) (loc : location) (v : node) : node :=
  match loc with
  | [] => v
  | c :: r =>
      match fs with
      | Dir p t es =>
          match r, es !! c with
          | [], _ => Dir p t (<[c := v]> es)
          | _, Some m => Dir p t (<[c := put m r v]> es)
          | _, None => fs
          end
      | _ => fs
      end
  end.

(** [remove fs loc]: the entry at [loc] and everything below it. *)
Fixpoint remove (fs : node) (loc : location) : node :=
  match loc with
  | [] => fs
  | c :: r =>
      match fs with
      | Dir p t es =>
          match r, es !! c with
          | [], _ => Dir p t (delete c es)
          | _, Some m => Dir p t (<[c := remove m r]> es)
          | _, None => fs
          end
      | _ => fs
      end
  end.

Definition is_Dir (n : node) : bool :=
  match n with Dir _ _ _ => true | _ => false end.
Definition is_File (n : node) : bool :=
  match n with File _ _ _ => true | _ => false end.
Definition is_Symlink (n : node) : bool :=
  match n with Symlink _ => true | _ => false end.

(** ** The kernel's path walk *)

(** Where a walk ends: at an entry; at a name that is absent from an
    existing directory (what [O_CREAT] and [mkdir] need); or in an error. *)
Inductive walk_result :=
| Found (loc : location)
| Missing (dir : location) (entry : string)
| Fail (e : errno).

(** Linux follows at most 40 symbolic links in one walk. *)
Definition MAXSYMLINKS : nat := 40.

(** [walk fuel follow fs cur comps]: from the directory at [cur], component
    by component.  [..] is the parent of the directory reached (physical),
    a link is replaced by the components of its target; [follow] tells
    whether a link in last position is followed.  [fuel] is the number of
    links that may still be followed. *)
Fixpoint walk (fuel : nat) (follow : bool) (fs : node)
    (cur : location) (comps : list string) : walk_result :=
  let expand :=
    match fuel with
    | O => None
    | S fuel' => Some (walk fuel' follow fs)
    end in
  (fix go (cur : location) (comps : list string) : walk_result :=
     match comps with
     | [] => Found cur
     | c :: rest =>
         if bool_decide (c = "") || bool_decide (c = ".") then go cur rest
         else if bool_decide (c = "..") then go (removelast cur) rest
         else
           match get fs (cur ++ [c]) with
           | None =>
               match rest with [] => Missing cur c | _ => Fail ENOENT end
           | Some (File _ _ _) =>
               match rest with [] => Found (cur ++ [c]) | _ => Fail ENOTDIR end
           | Some (Dir _ _ _) => go (cur ++ [c]) rest
           | Some (Symlink t) =>
               if match rest with [] => negb follow | _ => false end
               then Found (cur ++ [c])
               else if bool_decide (t = "") then Fail ENOENT
               else match expand with
                    | None => Fail ELOOP
                    | Some k =>
                        k (if startswith SEP t then [] else cur)
                          (split SEP t ++ rest)
                    end
           end
     end) cur comps.

(** ** The process and its configuration *)

Record config := mkConfig {
  BASE_DIR : string;              (* FILESYSTEM_BASE_DIR, default "/data" *)
  cwd : location;                 (* os.getcwd(), canonical *)
  umask : Z;
  recursion_limit : nat;          (* frames left for recursive library code *)
  guess_type : string → option string   (* mimetypes.guess_type(...)[0] *)
}.

Record stat_result := mkStat { st_mode : Z; st_size : Z; st_mtime : Z }.

Definition S_IFMT : Z := 61440.   (* 0o170000 *)
Definition S_IFDIR : Z := 16384.  (* 0o040000 *)
Definition S_IFREG : Z := 32768.  (* 0o100000 *)
Definition S_IFLNK : Z := 40960.  (* 0o120000 *)

Definition S_ISDIR (m : Z) : bool := bool_decide (Z.land m S_IFMT = S_IFDIR).
Definition S_ISREG (m : Z) : bool := bool_decide (Z.land m S_IFMT = S_IFREG).
Definition S_ISLNK (m : Z) : bool := bool_decide (Z.land m S_IFMT = S_IFLNK).

(** What [stat] reports for a node: the file type in the high bits of
    [st_mode], the twelve permission bits below.  The size of a directory
    depends on the filesystem; the server never reads it. *)
Definition stat_of (n : node) : stat_result :=
  match n with
  | File p t d => mkStat (Z.lor S_IFREG (Z.land p 4095)) (Z.of_nat (length d)) t
  | Dir p t _ => mkStat (Z.lor S_IFDIR (Z.land p 4095)) 4096 t
  | Symlink t => mkStat (Z.lor S_IFLNK 511) (Z.of_nat (String.length t)) 0
  end.

Section OS.
Context (cfg : config).

(** A path with a NUL never reaches the kernel: CPython raises
    [ValueError: embedded null byte]. *)
Definition has_nul (p : Path) : bool := existsb (contains NUL) (parts p).

Definition namei (follow : bool) (fs : node) (p : Path)
  : py_exn + walk_result :=
  if has_nul p then inl ValueError
  else inr (walk MAXSYMLINKS follow fs
              (if is_absolute p then [] else cwd cfg) (parts p)).

Definition stat_at (fs : node) (w : walk_result) : py_exn + stat_result :=
  match w with
  | Found loc =>
      match get fs loc with
      | Some n => inr (stat_of n)
      | None => inl (OSError ENOENT)
      end
  | Missing _ _ => inl (OSError ENOENT)
  | Fail e => inl (OSError e)
  end.

(** [os.stat] and [os.lstat] *)
Definition os_stat (fs : node) (p : Path) : py_exn + stat_result :=
  w ← namei true fs p; stat_at fs w.
Definition os_lstat (fs : node) (p : Path) : py_exn + stat_result :=
  w ← namei false fs p; stat_at fs w.

(** [os.readlink] *)
Definition os_readlink (fs : node) (p : Path) : py_exn + string :=
  w ← namei false fs p;
  match w with
  | Found loc =>
      match get fs loc with
      | Some (Symlink t) => inr t
      | Some _ => inl (OSError EINVAL)
      | None => inl (OSError ENOENT)
      end
  | Missing _ _ => inl (OSError ENOENT)
  | Fail e => inl (OSError e)
  end.

(** [Path.exists], [Path.is_dir], [Path.is_file]: [stat], with the errors
    [ENOENT], [ENOTDIR], [ELOOP] and [ValueError] turned into [False].
    [stat] raises nothing else here. *)
Definition exists_ (fs : node) (p : Path) : bool :=
  match os_stat fs p with inr _ => true | inl _ => false end.
Definition is_dir (fs : node) (p : Path) : bool :=
  match os_stat fs p with inr st => S_ISDIR (st_mode st) | inl _ => false end.
Definition is_file (fs : node) (p : Path) : bool :=
  match os_stat fs p with inr st => S_ISREG (st_mode st) | inl _ => false end.

(** *** Canonicalization: [os.path.realpath] and [Path.resolve] *)

(** [posixpath._joinrealpath] in its non-strict mode.  [path] is what has
    been resolved so far, [rest] the components still to do.  A component
    that is not a link, or that cannot be inspected, is appended as it is.
    A link is replaced by the resolution of its target, started from
    [path] (from the root for an absolute target).  [active] holds the
    links whose resolution is under way (the keys of [seen] bound to
    [None]); meeting one of them again is a loop, and the walk stops
    there: the answer is then the path so far with the remainder appended
    unresolved, flagged [false].  (The resolved values that [seen] also
    caches only save work.)  The function is recursive in Python as well;
    [fuel] is its recursion limit. *)
Fixpoint joinrealpath (fuel : nat) (fs : node) (active : list location)
    (path : location) (rest : list string)
  : py_exn + (list string * bool) :=
  match fuel with
  | O => inl RecursionError
  | S fuel' =>
      (fix loop (path : location) (rest : list string)
         : py_exn + (list string * bool) :=
         match rest with
         | [] => inr (path, true)
         | c :: rest' =>
             if bool_decide (c = "") || bool_decide (c = ".")
             then loop path rest'
             else if bool_decide (c = "..") then loop (removelast path) rest'
             else
               let newpath := path ++ [c] in
               match os_lstat fs (mkPath true newpath) with
               | inl (OSError _) => loop newpath rest'
               | inl e => inl e
               | inr st =>
                   if negb (S_ISLNK (st_mode st)) then loop newpath rest'
                   else if bool_decide (newpath ∈ active)
                   then inr (newpath ++ rest', false)
                   else
                     t ← os_readlink fs (mkPath true newpath);
                     r ← joinrealpath fuel' fs (newpath :: active)
                           (if startswith SEP t then [] else path)
                           (split SEP t);
                     match r with
                     | (path', true) => loop path' rest'
                     | (path', false) => inr (path' ++ rest', false)
                     end
               end
         end) path rest
  end.

(** [os.path.normpath] on the components of an absolute path. *)
Definition normpath_step (acc : location) (c : string) : location :=
  if bool_decide (c = "") || bool_decide (c = ".") then acc
  else if bool_decide (c = "..") then removelast acc
  else acc ++ [c].

Definition normpath (comps : list string) : location :=
  fold_left normpath_step comps [].

(** [os.path.realpath(p)] *)
Definition realpath (fs : node) (p : Path) : py_exn + location :=
  r ← joinrealpath (recursion_limit cfg) fs []
        (if is_absolute p then [] else cwd cfg) (parts p);
  mret (normpath r.1).

(** [Path.resolve()] (non-strict): [realpath], then a [stat] of the result
    that turns a surviving link loop into [RuntimeError]. *)
Definition resolve (fs : node) (p : Path) : py_exn + Path :=
  s ← realpath fs p;
  let q := mkPath true s in
  match os_stat fs q with
  | inl (OSError ELOOP) => inl RuntimeError
  | inl (OSError _) => inr q
  | inl e => inl e
  | inr _ => inr q
  end.

(** ** [safe_path] *)

Definition safe_path (fs : node) (path : string) : HTTPException + Path :=
  reraise (MsgExn "Path processing error: ")
    (let path := if bool_decide (path = "") then "" else path in
     let path := unquote path in
     let path := lstrip SEP path in
     base_path ← lift (resolve fs (path_of (BASE_DIR cfg)));
     let full_path := truediv base_path path in
     let resolved_path :=
       match resolve fs full_path with
       | inr r => r
       | inl _ => full_path
       end in
     match relative_to resolved_path base_path with
     | inl ValueError =>
         raise (Http (mkHTTP 400 (Msg "Invalid path: outside base directory")))
     | inl e => raise (Py e)
     | inr _ => mret resolved_path
     end).

End OS.


(** ** Text codecs *)

(** Text is a list of code points.  A Python [str] may hold any value below
    [0x110000], lone surrogates included; those have no UTF-8 form. *)
Definition is_surrogate (c : Z) : bool := (55296 <=? c) && (c <=? 57343).

Definition utf8_encode_char (c : Z) : option (list Z) :=
  if c <? 0 then None
  else if c <? 128 then Some [c]
  else if c <? 2048 then Some [192 + c / 64; 128 + c mod 64]
  else if c <? 65536 then
    if is_surrogate c then None
    else Some [224 + c / 4096; 128 + (c / 64) mod 64; 128 + c mod 64]
  else if c <? 1114112 then
    Some [240 + c / 262144; 128 + (c / 4096) mod 64;
          128 + (c / 64) mod 64; 128 + c mod 64]
  else None.

Fixpoint utf8_encode (s : list Z) : option (list Z) :=
  match s with
  | [] => Some []
  | c :: r =>
      b ← utf8_encode_char c; bs ← utf8_encode r; Some (b ++ bs)
  end.

Definition is_cont (b : Z) : bool := (128 <=? b) && (b <=? 191).

(** Strict UTF-8 decoding: shortest forms only, no surrogate, nothing above
    [0x10FFFF]. *)
Fixpoint utf8_decode (bs : list Z) : option (list Z) :=
  match bs with
  | [] => Some []
  | b0 :: r0 =>
      if (0 <=? b0) && (b0 <? 128) then
        cs ← utf8_decode r0; Some (b0 :: cs)
      else if (194 <=? b0) && (b0 <=? 223) then
        match r0 with
        | b1 :: r1 =>
            if is_cont b1 then
              cs ← utf8_decode r1;
              Some ((b0 - 192) * 64 + (b1 - 128) :: cs)
            else None
        | _ => None
        end
      else if (224 <=? b0) && (b0 <=? 239) then
        match r0 with
        | b1 :: b2 :: r2 =>
            let c := (b0 - 224) * 4096 + (b1 - 128) * 64 + (b2 - 128) in
            if is_cont b1 && is_cont b2 && (2048 <=? c) && negb (is_surrogate c)
            then cs ← utf8_decode r2; Some (c :: cs)
            else None
        | _ => None
        end
      else if (240 <=? b0) && (b0 <=? 244) then
        match r0 with
        | b1 :: b2 :: b3 :: r3 =>
            let c := (b0 - 240) * 262144 + (b1 - 128) * 4096
                     + (b2 - 128) * 64 + (b3 - 128) in
            if is_cont b1 && is_cont b2 && is_cont b3
               && (65536 <=? c) && (c <? 1114112)
            then cs ← utf8_decode r3; Some (c :: cs)
            else None
        | _ => None
        end
      else None
  end.

Definition latin1_encode (s : list Z) : option (list Z) :=
  if forallb (λ c, (0 <=? c) && (c <? 256)) s then Some s else None.

Definition ascii_encode (s : list Z) : option (list Z) :=
  if forallb (λ c, (0 <=? c) && (c <? 128)) s then Some s else None.

Inductive codec := Utf8 | Latin1 | Ascii.

(** [codecs.lookup]: the registry is cut down to three codecs and their
    usual spellings.  Other names of CPython's registry are outside the
    model; nothing below depends on how they behave. *)
Definition codecs_lookup (encoding : string) : option codec :=
  if bool_decide (encoding ∈ ["utf-8"; "utf8"; "UTF-8"; "utf_8"; "UTF8"]) then Some Utf8
  else if bool_decide (encoding ∈ ["latin-1"; "latin1"; "iso-8859-1"; "latin_1"]) then Some Latin1
  else if bool_decide (encoding ∈ ["ascii"; "us-ascii"]) then Some Ascii
  else None.

Definition encode (c : codec) (s : list Z) : option (list Z) :=
  match c with
  | Utf8 => utf8_encode s
  | Latin1 => latin1_encode s
  | Ascii => ascii_encode s
  end.

(** A text file opened for reading has universal newlines: [\r\n] and a
    lone [\r] are read as [\n]. *)
Fixpoint universal_newlines (s : list Z) : list Z :=
  match s with
  | [] => []
  | c :: r =>
      if bool_decide (c = 13) then
        10 :: match r with
              | d :: r' =>
                  if bool_decide (d = 10) then universal_newlines r'
                  else universal_newlines r
              | [] => []
              end
      else c :: universal_newlines r
  end.

(** ** [oct] and slices *)

Definition octdigit (d : Z) : ascii := ascii_of_N (48 + Z.to_N d).

(** The octal digits of [n ≥ 0], most significant first. *)
Fixpoint oct_digits (fuel : nat) (n : Z) : list ascii :=
  match fuel with
  | O => []
  | S fuel' =>
      (if n <? 8 then [] else oct_digits fuel' (n / 8)) ++ [octdigit (n mod 8)]
  end.

(** [oct(n)] *)
Definition oct (n : Z) : string :=
  if n <? 0
  then "-0o" +:+ string_of_list_ascii (oct_digits (S (Z.to_nat (Z.log2 (- n)))) (- n))
  else "0o" +:+ string_of_list_ascii (oct_digits (S (Z.to_nat (Z.log2 n))) n).

(** [s[-k:]] *)
Definition last_chars (k : nat) (s : string) : string :=
  let l := list_ascii_of_string s in
  string_of_list_ascii (drop (length l - k) l).

(** ** Files and directories: the calls of [os], [pathlib] and [shutil] *)

(** A call that changes the filesystem returns the new filesystem together
    with its outcome: an exception leaves what was done before it. *)
Definition effect (A : Type) : Type := node * (py_exn + A).

Section Files.
Context (cfg : config).

(** The paths [iterdir] yields and the order [sorted] puts them in:
    [PurePath.__lt__] compares the component lists, strings by code
    point. *)
Fixpoint parts_le (l1 l2 : list string) : bool :=
  match l1, l2 with
  | [], _ => true
  | _ :: _, [] => false
  | a :: r1, b :: r2 =>
      if decide (a = b) then parts_le r1 r2 else String.leb a b
  end.

Definition path_le (p q : Path) : Prop :=
  parts_le (abs_parts p) (abs_parts q) = true.

#[global] Instance path_le_dec : RelDecision path_le.
Proof. intros p q. unfold path_le. apply _. Defined.


Definition child (p : Path) (c : string) : Path :=
  mkPath (is_absolute p) (parts p ++ [c]).

(** [Path.iterdir]: the children, in the order of the directory. *)
Definition iterdir (fs : node) (p : Path) : py_exn + list Path :=
  w ← namei cfg true fs p;
  match w with
  | Found loc =>
      match get fs loc with
      | Some (Dir _ _ es) => inr (child p <$> (map_to_list es).*1)
      | Some _ => inl (OSError ENOTDIR)
      | None => inl (OSError ENOENT)
      end
  | Missing _ _ => inl (OSError ENOENT)
  | Fail e => inl (OSError e)
  end.

Definition new_dir (now : Z) : node := Dir (Z.ldiff 511 (umask cfg)) now ∅.
Definition new_file (now : Z) : node := File (Z.ldiff 438 (umask cfg)) now [].

(** [os.mkdir] *)
Definition os_mkdir (now : Z) (fs : node) (p : Path) : py_exn + node :=
  w ← namei cfg false fs p;
  match w with
  | Found _ => inl (OSError EEXIST)
  | Missing dir c => inr (put fs (dir ++ [c]) (new_dir now))
  | Fail e => inl (OSError e)
  end.

(** [Path.mkdir(parents=False, exist_ok=ok)] *)
Definition mkdir_one (now : Z) (ok : bool) (fs : node) (p : Path)
  : effect unit :=
  match os_mkdir now fs p with
  | inr fs' => (fs', inr ())
  | inl (OSError ENOENT) => (fs, inl (OSError ENOENT))
  | inl e =>
      if is_OSError e && ok && is_dir cfg fs p then (fs, inr ())
      else (fs, inl e)
  end.

(** [Path.mkdir(parents=True, exist_ok=True)]: when the parent is missing,
    make it the same way, then make the directory.  Recursive in Python
    too; [fuel] is its recursion limit. *)
Fixpoint mkdir_parents (fuel : nat) (now : Z) (fs : node) (p : Path)
  : effect unit :=
  match os_mkdir now fs p with
  | inr fs' => (fs', inr ())
  | inl (OSError ENOENT) =>
      if bool_decide (parent p = p) then (fs, inl (OSError ENOENT))
      else match fuel with
           | O => (fs, inl RecursionError)
           | S fuel' =>
               match mkdir_parents fuel' now fs (parent p) with
               | (fs1, inr _) => mkdir_one now true fs1 p
               | (fs1, inl e) => (fs1, inl e)
               end
           end
  | inl e =>
      if is_OSError e && is_dir cfg fs p then (fs, inr ()) else (fs, inl e)
  end.

(** [os.makedirs(p, exist_ok=True)]: the parent first when it does not
    exist, then the directory itself. *)
Fixpoint makedirs (fuel : nat) (now : Z) (fs : node) (p : Path)
  : effect unit :=
  let '(fs1, r) :=
    if negb (bool_decide (parts p = [])) && negb (exists_ cfg fs (parent p))
    then match fuel with
         | O => (fs, inl RecursionError)
         | S fuel' =>
             match makedirs fuel' now fs (parent p) with
             | (fs1, inl (OSError EEXIST)) => (fs1, inr ())
             | r => r
             end
         end
    else (fs, inr ()) in
  match r with
  | inl e => (fs1, inl e)
  | inr _ =>
      match os_mkdir now fs1 p with
      | inr fs2 => (fs2, inr ())
      | inl e =>
          if is_OSError e && is_dir cfg fs1 p then (fs1, inr ())
          else (fs1, inl e)
      end
  end.

(** [open(p, "w")] and [open(p, "wb")]: the file is created or emptied;
    the answer is the filesystem and where the file is. *)
Definition open_w (now : Z) (fs : node) (p : Path)
  : py_exn + (node * location) :=
  w ← namei cfg true fs p;
  match w with
  | Found loc =>
      match get fs loc with
      | Some (File pm _ _) => inr (put fs loc (File pm now []), loc)
      | Some _ => inl (OSError EISDIR)
      | None => inl (OSError ENOENT)
      end
  | Missing dir c => inr (put fs (dir ++ [c]) (new_file now), dir ++ [c])
  | Fail e => inl (OSError e)
  end.

Definition set_data (fs : node) (loc : location) (d : list Z) : node :=
  match get fs loc with
  | Some (File pm t _) => put fs loc (File pm t d)
  | _ => fs
  end.

(** [open(p, "rb").read()], with the permission bits and time of the
    file. *)
Definition read_file_node (fs : node) (p : Path)
  : py_exn + (Z * Z * list Z) :=
  w ← namei cfg true fs p;
  match w with
  | Found loc =>
      match get fs loc with
      | Some (File pm t d) => inr (pm, t, d)
      | Some _ => inl (OSError EISDIR)
      | None => inl (OSError ENOENT)
      end
  | Missing _ _ => inl (OSError ENOENT)
  | Fail e => inl (OSError e)
  end.

(** [Path.read_text(encoding="utf-8")] *)
Definition read_text (fs : node) (p : Path) : py_exn + list Z :=
  f ← read_file_node fs p;
  match utf8_decode f.2 with
  | Some s => inr (universal_newlines s)
  | None => inl UnicodeDecodeError
  end.

(** [Path.write_text(data, encoding=encoding)]: the file is opened (and so
    emptied) first, the codec is looked up next, the text is encoded and
    written last.  On POSIX the text layer writes [\n] as it is. *)
Definition write_text (now : Z) (fs : node) (p : Path)
    (data : list Z) (encoding : string) : effect unit :=
  match open_w now fs p with
  | inl e => (fs, inl e)
  | inr (fs1, loc) =>
      match codecs_lookup encoding with
      | None => (fs1, inl LookupError)
      | Some c =>
          match encode c data with
          | None => (fs1, inl UnicodeEncodeError)
          | Some bytes => (set_data fs1 loc bytes, inr ())
          end
      end
  end.

(** [Path.unlink] *)
Definition unlink (fs : node) (p : Path) : effect unit :=
  match namei cfg false fs p with
  | inl e => (fs, inl e)
  | inr (Found loc) =>
      match get fs loc with
      | Some (Dir _ _ _) => (fs, inl (OSError EISDIR))
      | Some _ => (remove fs loc, inr ())
      | None => (fs, inl (OSError ENOENT))
      end
  | inr (Missing _ _) => (fs, inl (OSError ENOENT))
  | inr (Fail e) => (fs, inl (OSError e))
  end.

(** [shutil.rmtree]: a directory goes with all that is below it.  The
    argument itself must be a directory and not a link to one ([OSError]
    otherwise); the root directory of the filesystem is emptied, but cannot
    be removed. *)
Definition rmtree (fs : node) (p : Path) : effect unit :=
  match namei cfg false fs p with
  | inl e => (fs, inl e)
  | inr (Found loc) =>
      match get fs loc with
      | Some (Dir pm t _) =>
          if bool_decide (loc = []) then (Dir pm t ∅, inl (OSError EBUSY))
          else (remove fs loc, inr ())
      | Some _ => (fs, inl (OSError ENOTDIR))
      | None => (fs, inl (OSError ENOENT))
      end
  | inr (Missing _ _) => (fs, inl (OSError ENOENT))
  | inr (Fail e) => (fs, inl (OSError e))
  end.

(** [os.path.samefile], as [shutil._samefile] uses it: both exist and are
    the same entry. *)
Definition samefile (fs : node) (p q : Path) : bool :=
  match namei cfg true fs p, namei cfg true fs q with
  | inr (Found l1), inr (Found l2) => bool_decide (l1 = l2)
  | _, _ => false
  end.

(** [shutil.copy2(src, dst)]: into [dst] when it is a directory;
    [copyfile] (refuses to copy a file onto itself, reads the source, then
    creates or empties the destination and writes), then [copystat]
    (permission bits and times of the source). *)
Definition copy2 (now : Z) (fs : node) (src dst : Path) : effect unit :=
  let dst := if is_dir cfg fs dst then child dst (path_name src) else dst in
  if samefile fs src dst then (fs, inl ShutilError)
  else
    match read_file_node fs src with
    | inl e => (fs, inl e)
    | inr (pm, t, d) =>
        match open_w now fs dst with
        | inl e => (fs, inl e)
        | inr (fs1, loc) => (put fs1 loc (File pm t d), inr ())
        end
    end.

(** [shutil.copystat(src, dst)] for a directory [dst]. *)
Definition copystat (fs : node) (src dst : Path) : effect unit :=
  match os_stat cfg fs src, namei cfg true fs dst with
  | inr st, inr (Found loc) =>
      match get fs loc with
      | Some (Dir _ _ es) =>
          (put fs loc (Dir (Z.land (st_mode st) 4095) (st_mtime st) es), inr ())
      | Some (File _ _ d) =>
          (put fs loc (File (Z.land (st_mode st) 4095) (st_mtime st) d), inr ())
      | _ => (fs, inl (OSError ENOENT))
      end
  | inl e, _ => (fs, inl e)
  | _, inl e => (fs, inl e)
  | _, inr (Fail e) => (fs, inl (OSError e))
  | _, inr _ => (fs, inl (OSError ENOENT))
  end.

(** [shutil.copytree(src, dst, dirs_exist_ok=True)]: list the source,
    make the destination directory (and its parents) unless it is there,
    copy each entry (a directory, or a link to one, by a recursive call;
    anything else with [copy2], links followed), then copy the attributes
    of the directory.  An [OSError] on one entry is recorded and the copy
    goes on; the records are raised together at the end.  [fuel] is the
    recursion limit. *)
Fixpoint copytree (fuel : nat) (now : Z) (fs : node) (src dst : Path)
  : effect unit :=
  match fuel with
  | O => (fs, inl RecursionError)
  | S fuel' =>
      match iterdir fs src with
      | inl e => (fs, inl e)
      | inr entries =>
          match makedirs (recursion_limit cfg) now fs dst with
          | (fs1, inl e) => (fs1, inl e)
          | (fs1, inr _) =>
              let '(fs2, r) :=
                (fix each (l : list Path) (fs : node) (errors : list (Path * py_exn))
                   : effect (list (Path * py_exn)) :=
                   match l with
                   | [] => (fs, inr errors)
                   | srcname :: l' =>
                       let dstname := child dst (path_name srcname) in
                       let '(fs', r) :=
                         if is_dir cfg fs srcname
                         then copytree fuel' now fs srcname dstname
                         else copy2 now fs srcname dstname in
                       match r with
                       | inr _ => each l' fs' errors
                       | inl e =>
                           if is_OSError e
                           then each l' fs' (errors ++ [(srcname, e)])
                           else (fs', inl e)
                       end
                   end) entries fs1 [] in
              match r with
              | inl e => (fs2, inl e)
              | inr errors =>
                  let '(fs3, r3) := copystat fs2 src dst in
                  match r3, errors with
                  | inr _, [] => (fs3, inr ())
                  | _, _ => (fs3, inl ShutilError)
                  end
              end
          end
      end
  end.

End Files.

(** ** The endpoints of [main.py] *)

Record FileInfo := mkFileInfo {
  name : string;
  path : string;
  type : string;              (* "file" or "directory" *)
  size : option Z;
  modified : Z;               (* st_mtime; its ISO text is not modelled *)
  permissions : string
}.


Record WriteFileRequest := mkWrite {
  request_path : string;
  content : list Z;
  encoding : string           (* default "utf-8" *)
}.

(** What [read_file] answers: the file itself ([download=true]), its text,
    or the description it gives of a file that is not text. *)
Inductive read_response :=
| FileResponse (file : Path) (filename : string) (media_type : string)
| FileContent (text : list Z) (text_encoding : string)
| JSONResponse (error : string) (mime_type : option string)
    (byte_size : Z) (download_url : string).

Section Endpoints.
Context (cfg : config).

Definition http {A} (status : Z) (text : string) : result A :=
  raise (Http (mkHTTP status (Msg text))).

(** [safe_path], called from inside an endpoint's [try]. *)
Definition safe (fs : node) (p : string) : result Path :=
  match safe_path cfg fs p with inl h => inl (Http h) | inr q => inr q end.

Definition get_file_info (fs : node) (p : Path) : py_exn + FileInfo :=
  stat_info ← os_stat cfg fs p;
  base ← resolve cfg fs (path_of (BASE_DIR cfg));
  relative_path ← relative_to p base;
  mret (mkFileInfo
          (path_name p)
          (str relative_path)
          (if is_dir cfg fs p then "directory" else "file")
          (if is_file cfg fs p then Some (st_size stat_info) else None)
          (st_mtime stat_info)
          (last_chars 3 (oct (st_mode stat_info)))).



Definition read_file (fs : node) (file_path : string) (download : bool)
  : HTTPException + read_response :=
  reraise (MsgExn "")
    (p ← safe fs file_path;
     if negb (exists_ cfg fs p)
     then http 404 ("File not found: " +:+ file_path)
     else if negb (is_file cfg fs p)
     then http 400 ("Path is not a file: " +:+ file_path)
     else if download
     then mret (FileResponse p (path_name p) "application/octet-stream")
     else
       match read_text cfg fs p with
       | inr text => mret (FileContent text "utf-8")
       | inl UnicodeDecodeError =>
           st ← lift (os_stat cfg fs p);
           mret (JSONResponse "Binary file cannot be displayed as text"
                   (guess_type cfg (str p)) (st_size st)
                   ("/files/" +:+ file_path +:+ "/content?download=true"))
       | inl e => raise (Py e)
       end).

(** An endpoint that writes answers with the filesystem it leaves. *)
Definition respond {A} (fs : node) (m : result A) : node * (HTTPException + A) :=
  (fs, reraise (MsgExn "") m).

Definition write_file (now : Z) (fs : node) (file_path : string)
    (request : WriteFileRequest) : node * (HTTPException + string) :=
  match safe fs file_path with
  | inl r => respond fs (inl r)
  | inr p =>
      match mkdir_parents cfg (recursion_limit cfg) now fs (parent p) with
      | (fs1, inl e) => respond fs1 (raise (Py e))
      | (fs1, inr _) =>
          match write_text cfg now fs1 p (content request) (encoding request) with
          | (fs2, inl e) => respond fs2 (raise (Py e))
          | (fs2, inr _) =>
              respond fs2 (mret ("File " +:+ file_path +:+ " written successfully"))
          end
      end
  end.

Definition delete_file_or_directory (fs : node) (file_path : string)
  : node * (HTTPException + string) :=
  match safe fs file_path with
  | inl r => respond fs (inl r)
  | inr p =>
      if negb (exists_ cfg fs p)
      then respond fs (http 404 "File or directory not found")
      else if is_dir cfg fs p then
        match rmtree cfg fs p with
        | (fs1, inl e) => respond fs1 (raise (Py e))
        | (fs1, inr _) =>
            respond fs1 (mret ("Directory " +:+ file_path +:+ " deleted successfully"))
        end
      else
        match unlink cfg fs p with
        | (fs1, inl e) => respond fs1 (raise (Py e))
        | (fs1, inr _) =>
            respond fs1 (mret ("File " +:+ file_path +:+ " deleted successfully"))
        end
  end.


End Endpoints.

(** ** A sample deployment *)

(** The default configuration: root [/data], working directory [/app],
    umask [022], a thousand frames, no MIME table. *)
Definition sample_config : config :=
  mkConfig "/data" ["app"] 18 1000 (λ _, None).

(** [/data] with a text file, a file that is not UTF-8, a text file with
    carriage returns, three directories, a
    link that points nowhere, a link that loops and a link that leaves the
    root; next to it [/data-evil] and [/etc/passwd]. *)
Definition sample_fs : node :=
  Dir 493 0 (list_to_map [
    ("app", Dir 493 0 ∅);
    ("data", Dir 493 1 (list_to_map [
        ("b.txt", File 420 5 [104; 105]);
        ("a.bin", File 2541 6 [255; 0]);
        ("crlf.txt", File 420 5 [97; 13; 10; 98; 13]);
        ("sub", Dir 493 7 (list_to_map [
            ("x", File 420 9 [120]);
            ("d", Dir 448 2 (list_to_map [("y", File 384 4 [121; 121])]))]));
        ("dst", Dir 511 8 (list_to_map [
            ("keep", File 420 9 [107]);
            ("x", File 416 3 [1; 2])]));
        ("empty", Dir 493 3 ∅);
        ("dang", Symlink "nowhere");
        ("loop", Symlink "loop");
        ("out", Symlink "/etc")]));
    ("data-evil", Dir 493 0 (list_to_map [("secret", File 384 1 [115])]));
    ("etc", Dir 493 0 (list_to_map [("passwd", File 420 1 [114])]))]).

Definition invalid_path : HTTPException :=
  mkHTTP 400 (Msg "Invalid path: outside base directory").


(** The three octal digits of a number below [0o1000], as text. *)
Definition octal3 (k : Z) : string :=
  string_of_list_ascii
    [octdigit (k / 64); octdigit (k / 8 mod 8); octdigit (k mod 8)].




(** No symbolic link lies on the way to [l], [l] included. *)
Definition linkfree (fs : node) (l : location) : Prop :=
  ∀ pre t, pre `prefix_of` l → get fs pre ≠ Some (Symlink t).

(** What an entry is, apart from what a directory holds. *)
Definition attr (n : node) : node :=
  match n with
  | Dir p t _ => Dir p t ∅
  | _ => n
  end.

(** [fs'] keeps every entry of [fs]: same kind, same attributes, same
    bytes; directories may have gained entries. *)
Definition keeps (fs fs' : node) : Prop :=
  ∀ q n, get fs q = Some n → ∃ n', get fs' q = Some n' ∧ attr n' = attr n.

(** [cur] is a directory of [fs]. *)
Definition dirloc (fs : node) (cur : location) : Prop :=
  ∃ p t es, get fs cur = Some (Dir p t es).

(** A real name: not empty, not [.], not [..]. *)
Definition plain_name (c : string) : Prop := c ≠ "" ∧ c ≠ "." ∧ c ≠ "..".

(** A canonical list of components: real names, none with a NUL. *)
Definition clean (l : list string) : Prop :=
  Forall (λ c, plain_name c ∧ contains NUL c = false) l.

(** Apart from [dl], what is below it and what the directories above it
    hold, [fs'] is [fs]. *)
Definition frame (dl : location) (fs fs' : node) : Prop :=
  (∀ q, ¬ dl `prefix_of` q → ¬ q `prefix_of` dl → get fs' q = get fs q)
  ∧ (∀ q n, q `prefix_of` dl → q ≠ dl → get fs q = Some n →
       ∃ n', get fs' q = Some n' ∧ attr n' = attr n).

(** What [copy2] and [copystat] give an entry: a file is copied as it is,
    a directory gets the permission bits and the time of the source. *)
Definition copy_of (n : node) : node :=
  match n with
  | Dir p t _ => Dir (Z.land p 4095) t ∅
  | _ => n
  end.

(** [fs'] holds at [dl] the tree that [fs] holds at [sl], and, beside it,
    what [fs] held at [dl] where the source has nothing. *)
Definition merged (sl dl : location) (fs fs' : node) : Prop :=
  (∀ r n, get fs (sl ++ r) = Some n →
     ∃ n', get fs' (dl ++ r) = Some n' ∧ attr n' = copy_of n)
  ∧ (∀ r n, get fs (dl ++ r) = Some n → get fs (sl ++ r) = None →
       ∃ n', get fs' (dl ++ r) = Some n' ∧ attr n' = attr n).

(** The tree at [sl] has no link and only canonical names. *)
Definition plain_tree (fs : node) (sl : location) : Prop :=
  ∀ r n, get fs (sl ++ r) = Some n → is_Symlink n = false ∧ clean (sl ++ r).

(** Where the destination already has an entry for one of the source, it is
    of the same kind: a directory for a directory, a regular file for a
    regular file. *)
Definition fits (fs : node) (sl dl : location) : Prop :=
  ∀ r n m, get fs (sl ++ r) = Some n → get fs (dl ++ r) = Some m →
    is_Symlink m = false ∧ is_Dir m = is_Dir n.

(** The loop of [copytree] over the entries of the source, the recursive
    call being [rec]. *)
Definition copy_entries (cfg : config)
    (rec : node → Path → Path → effect unit) (now : Z) (dst : Path)
  : list Path → node → list (Path * py_exn) → effect (list (Path * py_exn)) :=
  fix each (l : list Path) (fs : node) (errors : list (Path * py_exn))
    : effect (list (Path * py_exn)) :=
    match l with
    | [] => (fs, inr errors)
    | srcname :: l' =>
        let dstname := child dst (path_name srcname) in
        let '(fs', r) :=
          if is_dir cfg fs srcname
          then rec fs srcname dstname
          else copy2 cfg now fs srcname dstname in
        match r with
        | inr _ => each l' fs' errors
        | inl e =>
            if is_OSError e
            then each l' fs' (errors ++ [(srcname, e)])
            else (fs', inl e)
        end
    end.

(** What a source tree must be for [copytree] with [fuel] to go through
    without an error. *)
Definition copyable (fuel : nat) (fs : node) (sl dl : location) : Prop :=
  plain_tree fs sl ∧ fits fs sl dl
  ∧ ∀ r p t es, get fs (sl ++ r) = Some (Dir p t es) → (length r < fuel)%nat.

(** [copytree] with [fuel], from a directory [sl] to [dl = anc/missing...]
    apart from it, [anc] a directory and the first of [missing] not
    there. *)
Definition copytree_merges (cfg : config) (fuel : nat) (now : Z) : Prop :=
  ∀ fs sl dl anc missing pa ta ea ps ts es,
    get fs sl = Some (Dir ps ts es) →
    copyable fuel fs sl dl →
    ¬ sl `prefix_of` dl → ¬ dl `prefix_of` sl →
    dl = anc ++ missing → clean dl →
    get fs anc = Some (Dir pa ta ea) →
    match missing with m :: _ => ea !! m = None | [] => True end →
    (length missing ≤ S (recursion_limit cfg))%nat →
    ∃ fs',
      copytree cfg fuel now fs (mkPath true sl) (mkPath true dl) = (fs', inr ())
      ∧ frame dl fs fs' ∧ merged sl dl fs fs'.

(** * Properties *)

(** ** Pure paths *)


Lemma prefix_relative_to self other :
  is_absolute other = true →
  abs_parts other `prefix_of` abs_parts self →
  ∃ q, relative_to self other = inr q.
Proof.
  intros Ha [k Hk]. unfold relative_to.
  destruct (decide (length (abs_parts other) = 0%nat)) as [Hn|Hn].
  - unfold abs_parts in Hn. rewrite Ha in Hn. discriminate.
  - rewrite bool_decide_true; [simpl; eauto|].
    rewrite Hk. by rewrite take_app_length.
Qed.


Lemma lstrip_not_startswith c s : startswith c (lstrip c s) = false.
Proof.
  induction s as [|a s IH]; simpl; [done|].
  destruct (decide (a = c)) as [->|Hne]; [done|].
  simpl. by rewrite bool_decide_false.
Qed.



Lemma truediv_relative p s :
  startswith SEP s = false →
  truediv p s = mkPath (is_absolute p) (parts p ++ parse_parts s).
Proof. unfold truediv. by intros ->. Qed.

(** ** Percent-decoding *)




(** ** The tree *)

Lemma get_app fs l1 l2 : get fs (l1 ++ l2) = get fs l1 ≫= λ m, get m l2.
Proof.
  revert fs. induction l1 as [|c l1 IH]; intros fs; simpl; [done|].
  destruct fs as [| p t es |]; try done.
  destruct (es !! c); [apply IH | done].
Qed.

Lemma get_snoc fs dir c n :
  get fs (dir ++ [c]) = Some n ↔
  ∃ p t es, get fs dir = Some (Dir p t es) ∧ es !! c = Some n.
Proof.
  rewrite get_app. split.
  - destruct (get fs dir) as [[| p t es |]|]; simpl; try done.
    destruct (es !! c) eqn:E; simpl; [|done]. intros [= ->]. eauto.
  - intros (p & t & es & -> & H). simpl. by rewrite H.
Qed.

Lemma get_snoc_None fs dir c p t es :
  get fs dir = Some (Dir p t es) → es !! c = None → get fs (dir ++ [c]) = None.
Proof. intros H1 H2. rewrite get_app, H1. simpl. by rewrite H2. Qed.

Lemma get_below_file fs loc r p t d :
  get fs loc = Some (File p t d) → r ≠ [] → get fs (loc ++ r) = None.
Proof. intros H Hr. rewrite get_app, H. by destruct r. Qed.

Lemma get_below_link fs loc r t :
  get fs loc = Some (Symlink t) → r ≠ [] → get fs (loc ++ r) = None.
Proof. intros H Hr. rewrite get_app, H. by destruct r. Qed.

Lemma get_below_None fs loc r : get fs loc = None → get fs (loc ++ r) = None.
Proof. intros H. by rewrite get_app, H. Qed.

(** Whatever lies on the way to an entry is a directory. *)
Lemma get_prefix_Dir fs loc r n :
  get fs (loc ++ r) = Some n → r ≠ [] →
  ∃ p t es, get fs loc = Some (Dir p t es).
Proof.
  rewrite get_app. destruct (get fs loc) as [[| p t es |]|]; simpl;
    destruct r; try done. eauto.
Qed.

Lemma put_cons p t es c r v :
  r ≠ [] →
  put (Dir p t es) (c :: r) v
  = match es !! c with
    | Some m => Dir p t (<[c := put m r v]> es)
    | None => Dir p t es
    end.
Proof. by destruct r. Qed.

Lemma remove_cons p t es c r :
  r ≠ [] →
  remove (Dir p t es) (c :: r)
  = match es !! c with
    | Some m => Dir p t (<[c := remove m r]> es)
    | None => Dir p t es
    end.
Proof. by destruct r. Qed.

Lemma snoc_not_nil {A} (l : list A) x : l ++ [x] ≠ [].
Proof. by destruct l. Qed.

Lemma put_snoc fs dir c v p t es :
  get fs dir = Some (Dir p t es) →
  get (put fs (dir ++ [c]) v) dir = Some (Dir p t (<[c := v]> es)).
Proof.
  revert fs. induction dir as [|a dir IH]; intros fs.
  - simpl. by intros [= ->].
  - rewrite <- app_comm_cons. cbn [get].
    destruct fs as [| p' t' es' |]; try done.
    destruct (es' !! a) as [m|] eqn:E; [|done]. intros H.
    rewrite put_cons, E by apply snoc_not_nil.
    cbn [get]. rewrite lookup_insert_eq. by apply IH.
Qed.

Lemma get_put_below fs dir c v r p t es :
  get fs dir = Some (Dir p t es) →
  get (put fs (dir ++ [c]) v) (dir ++ c :: r) = get v r.
Proof.
  intros H. rewrite get_app, (put_snoc _ _ _ _ _ _ _ H). simpl.
  by rewrite lookup_insert_eq.
Qed.

Lemma get_put_here fs dir c v p t es :
  get fs dir = Some (Dir p t es) →
  get (put fs (dir ++ [c]) v) (dir ++ [c]) = Some v.
Proof. intros H. by rewrite (get_put_below _ _ _ _ [] _ _ _ H). Qed.

(** An entry is not touched by a change made elsewhere. *)
Lemma get_put_other fs loc v loc' :
  ¬ loc `prefix_of` loc' → ¬ loc' `prefix_of` loc →
  get (put fs loc v) loc' = get fs loc'.
Proof.
  revert fs loc'. induction loc as [|c loc IH]; intros fs loc' H1 H2.
  - destruct H1. apply prefix_nil.
  - destruct loc' as [|c' loc']; [destruct H2; apply prefix_nil|].
    simpl. destruct fs as [| p t es |]; try done.
    destruct (decide (c = c')) as [->|Hne].
    + assert (¬ loc `prefix_of` loc') by (intros ?; apply H1; by apply prefix_cons).
      assert (¬ loc' `prefix_of` loc) by (intros ?; apply H2; by apply prefix_cons).
      destruct loc as [|c2 loc]; [exfalso; eauto using prefix_nil|].
      destruct (es !! c') as [m|] eqn:E; simpl; rewrite ?E; [|done].
      rewrite lookup_insert_eq. by apply IH.
    + destruct loc as [|c2 loc].
      * simpl. by rewrite lookup_insert_ne.
      * destruct (es !! c) as [m|] eqn:E; simpl; [|done].
        by rewrite lookup_insert_ne.
Qed.

(** On the way to a change, directories stay directories, with their
    attributes. *)
Lemma get_put_above fs loc r v p t es :
  r ≠ [] → get fs loc = Some (Dir p t es) →
  ∃ es', get (put fs (loc ++ r) v) loc = Some (Dir p t es').
Proof.
  revert fs. induction loc as [|c loc IH]; intros fs Hr.
  - simpl. intros [= ->]. destruct r as [|a r]; [done|]. simpl.
    destruct r; [eauto|]. destruct (es !! a); eauto.
  - rewrite <- app_comm_cons. cbn [get].
    destruct fs as [| p' t' es' |]; try done.
    destruct (es' !! c) as [m|] eqn:E; [|done]. intros H.
    rewrite put_cons, E by (by destruct loc, r).
    cbn [get]. rewrite lookup_insert_eq. by apply IH.
Qed.

Lemma remove_snoc fs dir c p t es :
  get fs dir = Some (Dir p t es) →
  get (remove fs (dir ++ [c])) dir = Some (Dir p t (delete c es)).
Proof.
  revert fs. induction dir as [|a dir IH]; intros fs.
  - simpl. by intros [= ->].
  - rewrite <- app_comm_cons. cbn [get].
    destruct fs as [| p' t' es' |]; try done.
    destruct (es' !! a) as [m|] eqn:E; [|done]. intros H.
    rewrite remove_cons, E by apply snoc_not_nil.
    cbn [get]. rewrite lookup_insert_eq. by apply IH.
Qed.

(** After [remove], nothing is left at the place or below it. *)
Lemma get_remove_below fs dir c r p t es :
  get fs dir = Some (Dir p t es) →
  get (remove fs (dir ++ [c])) (dir ++ c :: r) = None.
Proof.
  intros H. rewrite get_app, (remove_snoc _ _ _ _ _ _ H). simpl.
  by rewrite lookup_delete_eq.
Qed.

Lemma get_remove_other fs loc loc' :
  ¬ loc `prefix_of` loc' → ¬ loc' `prefix_of` loc →
  get (remove fs loc) loc' = get fs loc'.
Proof.
  revert fs loc'. induction loc as [|c loc IH]; intros fs loc' H1 H2.
  - destruct H1. apply prefix_nil.
  - destruct loc' as [|c' loc']; [destruct H2; apply prefix_nil|].
    simpl. destruct fs as [| p t es |]; try done.
    destruct (decide (c = c')) as [->|Hne].
    + assert (¬ loc `prefix_of` loc') by (intros ?; apply H1; by apply prefix_cons).
      assert (¬ loc' `prefix_of` loc) by (intros ?; apply H2; by apply prefix_cons).
      destruct loc as [|c2 loc]; [exfalso; eauto using prefix_nil|].
      destruct (es !! c') as [m|] eqn:E; simpl; rewrite ?E; [|done].
      rewrite lookup_insert_eq. by apply IH.
    + destruct loc as [|c2 loc].
      * simpl. by rewrite lookup_delete_ne.
      * destruct (es !! c) as [m|] eqn:E; simpl; [|done].
        by rewrite lookup_insert_ne.
Qed.

(** ** The walk on plain names *)

Lemma walk_nil fuel follow fs cur : walk fuel follow fs cur [] = Found cur.
Proof. by destruct fuel. Qed.

Lemma walk_cons fuel follow fs cur c rest :
  walk fuel follow fs cur (c :: rest) =
  if bool_decide (c = "") || bool_decide (c = ".")
  then walk fuel follow fs cur rest
  else if bool_decide (c = "..") then walk fuel follow fs (removelast cur) rest
  else
    match get fs (cur ++ [c]) with
    | None => match rest with [] => Missing cur c | _ => Fail ENOENT end
    | Some (File _ _ _) =>
        match rest with [] => Found (cur ++ [c]) | _ => Fail ENOTDIR end
    | Some (Dir _ _ _) => walk fuel follow fs (cur ++ [c]) rest
    | Some (Symlink t) =>
        if match rest with [] => negb follow | _ => false end
        then Found (cur ++ [c])
        else if bool_decide (t = "") then Fail ENOENT
        else match fuel with
             | O => Fail ELOOP
             | S fuel' =>
                 walk fuel' follow fs (if startswith SEP t then [] else cur)
                   (split SEP t ++ rest)
             end
    end.
Proof. by destruct fuel. Qed.

Lemma plain_name_dots c :
  plain_name c →
  bool_decide (c = "") || bool_decide (c = ".") = false
  ∧ bool_decide (c = "..") = false.
Proof.
  intros (H1 & H2 & H3). by rewrite !bool_decide_false.
Qed.

Lemma walk_cons_plain fuel follow fs cur c rest :
  plain_name c →
  walk fuel follow fs cur (c :: rest) =
    match get fs (cur ++ [c]) with
    | None => match rest with [] => Missing cur c | _ => Fail ENOENT end
    | Some (File _ _ _) =>
        match rest with [] => Found (cur ++ [c]) | _ => Fail ENOTDIR end
    | Some (Dir _ _ _) => walk fuel follow fs (cur ++ [c]) rest
    | Some (Symlink t) =>
        if match rest with [] => negb follow | _ => false end
        then Found (cur ++ [c])
        else if bool_decide (t = "") then Fail ENOENT
        else match fuel with
             | O => Fail ELOOP
             | S fuel' =>
                 walk fuel' follow fs (if startswith SEP t then [] else cur)
                   (split SEP t ++ rest)
             end
    end.
Proof.
  intros [H1 H2]%plain_name_dots. by rewrite walk_cons, H1, H2.
Qed.

#[global] Arguments walk : simpl never.

Lemma get_app_Dir fs l r p t es :
  get fs (l ++ r) = Some (Dir p t es) →
  ∃ p' t' es', get fs l = Some (Dir p' t' es').
Proof.
  destruct r as [|c r].
  - rewrite app_nil_r. eauto.
  - intros H. by eapply get_prefix_Dir.
Qed.

(** Through a chain of directories the walk simply goes down. *)
Lemma walk_through fuel follow fs cur comps rest p t es :
  Forall plain_name comps →
  get fs (cur ++ comps) = Some (Dir p t es) →
  walk fuel follow fs cur (comps ++ rest)
  = walk fuel follow fs (cur ++ comps) rest.
Proof.
  intros Hpl. revert cur. induction Hpl as [|c cs Hc Hcs IH]; intros cur H.
  - by rewrite app_nil_r.
  - rewrite <- app_comm_cons, walk_cons_plain by done.
    replace (cur ++ c :: cs) with ((cur ++ [c]) ++ cs) in * by by rewrite <- app_assoc.
    destruct (get_app_Dir _ _ _ _ _ _ H) as (p' & t' & es' & ->).
    by apply IH.
Qed.

Lemma walk_found fuel follow fs cur comps n :
  Forall plain_name comps →
  get fs (cur ++ comps) = Some n →
  is_Symlink n = false ∨ follow = false →
  walk fuel follow fs cur comps = Found (cur ++ comps).
Proof.
  intros Hpl H Hn.
  destruct comps as [|c cs _] using rev_ind.
  - by rewrite walk_nil, app_nil_r.
  - apply Forall_app in Hpl as [Hcs Hc]. rewrite Forall_singleton in Hc.
    rewrite app_assoc in H. pose proof H as H'.
    apply get_snoc in H' as (p & t & es & Hd & He).
    rewrite (walk_through _ _ _ _ _ _ _ _ _ Hcs Hd).
    rewrite walk_cons_plain, H, app_assoc by done.
    destruct n as [| |tg]; try done.
    + by rewrite walk_nil.
    + by destruct Hn as [Hn| ->].
Qed.

Lemma walk_missing fuel follow fs cur comps c p t es :
  Forall plain_name comps → plain_name c →
  get fs (cur ++ comps) = Some (Dir p t es) → es !! c = None →
  walk fuel follow fs cur (comps ++ [c]) = Missing (cur ++ comps) c.
Proof.
  intros Hcs Hc Hd He.
  rewrite (walk_through _ _ _ _ _ _ _ _ _ Hcs Hd), walk_cons_plain by done.
  by rewrite (get_snoc_None _ _ _ _ _ _ Hd He).
Qed.

Lemma walk_enoent fuel follow fs cur comps c r p t es :
  Forall plain_name comps → plain_name c → r ≠ [] →
  get fs (cur ++ comps) = Some (Dir p t es) → es !! c = None →
  walk fuel follow fs cur (comps ++ c :: r) = Fail ENOENT.
Proof.
  intros Hcs Hc Hr Hd He.
  rewrite (walk_through _ _ _ _ _ _ _ _ _ Hcs Hd), walk_cons_plain by done.
  rewrite (get_snoc_None _ _ _ _ _ _ Hd He). by destruct r.
Qed.

Lemma walk_enotdir fuel follow fs cur comps c r p t d :
  Forall plain_name comps → plain_name c → r ≠ [] →
  get fs (cur ++ comps ++ [c]) = Some (File p t d) →
  walk fuel follow fs cur (comps ++ c :: r) = Fail ENOTDIR.
Proof.
  intros Hcs Hc Hr H. rewrite app_assoc in H. pose proof H as H'.
  apply get_snoc in H' as (p' & t' & es & Hd & He).
  rewrite (walk_through _ _ _ _ _ _ _ _ _ Hcs Hd), walk_cons_plain by done.
  rewrite H. by destruct r.
Qed.

(** ** System calls on canonical paths *)

Lemma clean_plain l : clean l → Forall plain_name l.
Proof. intros H. eapply Forall_impl; [exact H|]. by intros c [? ?]. Qed.

Lemma clean_no_nul a l : clean l → has_nul (mkPath a l) = false.
Proof.
  unfold has_nul. simpl. induction 1 as [|c l [_ Hc] _ IH]; simpl; [done|].
  by rewrite Hc, IH.
Qed.

Lemma clean_app l1 l2 : clean (l1 ++ l2) ↔ clean l1 ∧ clean l2.
Proof. apply Forall_app. Qed.

Lemma S_IS_File p t d :
  S_ISREG (st_mode (stat_of (File p t d))) = true
  ∧ S_ISDIR (st_mode (stat_of (File p t d))) = false
  ∧ S_ISLNK (st_mode (stat_of (File p t d))) = false.
Proof.
  unfold S_ISREG, S_ISDIR, S_ISLNK, S_IFMT, S_IFREG, S_IFDIR, S_IFLNK. simpl.
  rewrite Z.land_lor_distr_l, <- Z.land_assoc. simpl (Z.land 4095 _).
  rewrite Z.land_0_r. simpl. by repeat case_bool_decide.
Qed.

Lemma S_IS_Dir p t es :
  S_ISDIR (st_mode (stat_of (Dir p t es))) = true
  ∧ S_ISREG (st_mode (stat_of (Dir p t es))) = false
  ∧ S_ISLNK (st_mode (stat_of (Dir p t es))) = false.
Proof.
  unfold S_ISREG, S_ISDIR, S_ISLNK, S_IFMT, S_IFREG, S_IFDIR, S_IFLNK. simpl.
  rewrite Z.land_lor_distr_l, <- Z.land_assoc. simpl (Z.land 4095 _).
  rewrite Z.land_0_r. simpl. by repeat case_bool_decide.
Qed.

Lemma S_ISLNK_stat n : S_ISLNK (st_mode (stat_of n)) = is_Symlink n.
Proof.
  destruct n as [p t d|p t es|tg].
  - apply S_IS_File.
  - apply S_IS_Dir.
  - reflexivity.
Qed.

Lemma S_ISDIR_stat n : S_ISDIR (st_mode (stat_of n)) = is_Dir n.
Proof.
  destruct n as [p t d|p t es|tg].
  - apply S_IS_File.
  - apply S_IS_Dir.
  - reflexivity.
Qed.

Lemma S_ISREG_stat n : S_ISREG (st_mode (stat_of n)) = is_File n.
Proof.
  destruct n as [p t d|p t es|tg].
  - apply S_IS_File.
  - apply S_IS_Dir.
  - reflexivity.
Qed.

Section OS_facts.
Context (cfg : config).

Lemma namei_found follow fs l n :
  clean l → get fs l = Some n →
  is_Symlink n = false ∨ follow = false →
  namei cfg follow fs (mkPath true l) = inr (Found l).
Proof.
  intros Hc Hg Hn. unfold namei. rewrite clean_no_nul by done. simpl.
  f_equal. by apply (walk_found _ _ _ [] l n); [apply clean_plain|..].
Qed.

Lemma namei_missing follow fs dir c p t es :
  clean (dir ++ [c]) → get fs dir = Some (Dir p t es) → es !! c = None →
  namei cfg follow fs (mkPath true (dir ++ [c])) = inr (Missing dir c).
Proof.
  intros Hc Hg He. unfold namei. rewrite clean_no_nul by done. simpl.
  apply clean_plain, Forall_app in Hc as [H1 H2].
  rewrite Forall_singleton in H2.
  f_equal. by apply (walk_missing _ _ _ [] dir c p t es).
Qed.

Lemma os_stat_found fs l n :
  clean l → get fs l = Some n → is_Symlink n = false →
  os_stat cfg fs (mkPath true l) = inr (stat_of n).
Proof.
  intros Hc Hg Hn. unfold os_stat.
  rewrite (namei_found _ _ _ n) by auto. simpl. by rewrite Hg.
Qed.

Lemma os_lstat_found fs l n :
  clean l → get fs l = Some n →
  os_lstat cfg fs (mkPath true l) = inr (stat_of n).
Proof.
  intros Hc Hg. unfold os_lstat.
  rewrite (namei_found _ _ _ n) by auto. simpl. by rewrite Hg.
Qed.

Lemma os_stat_missing fs dir c p t es :
  clean (dir ++ [c]) → get fs dir = Some (Dir p t es) → es !! c = None →
  os_stat cfg fs (mkPath true (dir ++ [c])) = inl (OSError ENOENT).
Proof.
  intros Hc Hg He. unfold os_stat.
  by rewrite (namei_missing _ _ _ _ p t es).
Qed.

Lemma exists_found fs l n :
  clean l → get fs l = Some n → is_Symlink n = false →
  exists_ cfg fs (mkPath true l) = true.
Proof. intros. unfold exists_. by rewrite (os_stat_found _ _ n). Qed.

Lemma is_dir_found fs l n :
  clean l → get fs l = Some n → is_Symlink n = false →
  is_dir cfg fs (mkPath true l) = is_Dir n.
Proof.
  intros. unfold is_dir. rewrite (os_stat_found _ _ n) by done.
  apply S_ISDIR_stat.
Qed.

Lemma is_file_found fs l n :
  clean l → get fs l = Some n → is_Symlink n = false →
  is_file cfg fs (mkPath true l) = is_File n.
Proof.
  intros. unfold is_file. rewrite (os_stat_found _ _ n) by done.
  apply S_ISREG_stat.
Qed.

(** *** Canonicalization of a canonical path *)

Lemma joinrealpath_nil fuel fs active path :
  joinrealpath cfg (S fuel) fs active path [] = inr (path, true).
Proof. reflexivity. Qed.

Lemma joinrealpath_cons_plain fuel fs active path c rest :
  plain_name c →
  joinrealpath cfg (S fuel) fs active path (c :: rest) =
    let newpath := path ++ [c] in
    match os_lstat cfg fs (mkPath true newpath) with
    | inl (OSError _) => joinrealpath cfg (S fuel) fs active newpath rest
    | inl e => inl e
    | inr st =>
        if negb (S_ISLNK (st_mode st))
        then joinrealpath cfg (S fuel) fs active newpath rest
        else if bool_decide (newpath ∈ active)
        then inr (newpath ++ rest, false)
        else
          t ← os_readlink cfg fs (mkPath true newpath);
          r ← joinrealpath cfg fuel fs (newpath :: active)
                (if startswith SEP t then [] else path) (split SEP t);
          match r with
          | (path', true) => joinrealpath cfg (S fuel) fs active path' rest
          | (path', false) => inr (path' ++ rest, false)
          end
    end.
Proof.
  intros [H1 H2]%plain_name_dots. cbn [joinrealpath]. by rewrite H1, H2.
Qed.

#[global] Arguments joinrealpath : simpl never.

Lemma joinrealpath_canonical fuel fs active path comps n :
  clean (path ++ comps) →
  get fs (path ++ comps) = Some n → is_Symlink n = false →
  joinrealpath cfg (S fuel) fs active path comps = inr (path ++ comps, true).
Proof.
  revert path. induction comps as [|c cs IH]; intros path Hc Hg Hn.
  - by rewrite joinrealpath_nil, app_nil_r.
  - replace (path ++ c :: cs) with ((path ++ [c]) ++ cs) in *
      by by rewrite <- app_assoc.
    pose proof Hc as [Hc1 _]%clean_app.
    pose proof Hc1 as [_ [Hcp _]%Forall_singleton]%clean_app.
    rewrite joinrealpath_cons_plain by done. simpl.
    destruct (get fs (path ++ [c])) as [m|] eqn:Hm;
      [|by rewrite (get_below_None _ _ _ Hm) in Hg].
    rewrite (os_lstat_found _ _ m) by done.
    rewrite S_ISLNK_stat.
    assert (is_Symlink m = false) as ->.
    { destruct cs as [|c' cs'].
      - rewrite app_nil_r in Hg. congruence.
      - destruct m; try done.
        by rewrite (get_below_link _ _ _ _ Hm) in Hg. }
    simpl. by apply IH.
Qed.

Lemma normpath_acc comps acc :
  Forall plain_name comps → fold_left normpath_step comps acc = acc ++ comps.
Proof.
  intros H. revert acc. induction H as [|c cs Hc _ IH]; intros acc; simpl.
  - by rewrite app_nil_r.
  - unfold normpath_step at 2. apply plain_name_dots in Hc as [-> ->].
    rewrite IH. by rewrite <- app_assoc.
Qed.

Lemma normpath_plain_id comps : Forall plain_name comps → normpath comps = comps.
Proof. intros H. unfold normpath. by rewrite normpath_acc. Qed.

Lemma normpath_step_plain acc c :
  Forall plain_name acc → Forall plain_name (normpath_step acc c).
Proof.
  intros Hacc. unfold normpath_step.
  repeat case_bool_decide; simpl; try done.
  - destruct acc as [|a acc _] using rev_ind; [done|].
    rewrite removelast_last. by apply Forall_app in Hacc as [? _].
  - apply Forall_app. split; [done|]. by apply Forall_singleton.
Qed.

Lemma normpath_fold_plain comps acc :
  Forall plain_name acc → Forall plain_name (fold_left normpath_step comps acc).
Proof.
  revert acc. induction comps as [|c cs IH]; intros acc Hacc; simpl; [done|].
  by apply IH, normpath_step_plain.
Qed.

Lemma normpath_plain comps : Forall plain_name (normpath comps).
Proof. by apply normpath_fold_plain. Qed.

(** Canonicalizing a canonical path that exists gives it back. *)
Lemma resolve_canonical fs l n :
  (0 < recursion_limit cfg)%nat →
  clean l → get fs l = Some n → is_Symlink n = false →
  resolve cfg fs (mkPath true l) = inr (mkPath true l).
Proof.
  intros Hlim Hc Hg Hn. unfold resolve, realpath. simpl.
  destruct (recursion_limit cfg) as [|k]; [lia|].
  rewrite (joinrealpath_canonical k fs [] [] l n) by done. simpl.
  rewrite normpath_plain_id by by apply clean_plain.
  by rewrite (os_stat_found _ _ n).
Qed.

(** What canonicalization returns is absolute, made of real names and
    free of NUL. *)
Lemma resolve_clean fs p q :
  resolve cfg fs p = inr q → is_absolute q = true ∧ clean (parts q).
Proof.
  unfold resolve. destruct (realpath cfg fs p) as [e|s] eqn:Hr; [done|].
  simpl. intros H.
  assert (q = mkPath true s ∧ has_nul (mkPath true s) = false) as [-> Hnul].
  { unfold os_stat, namei in H.
    destruct (has_nul (mkPath true s)); simpl in H; [done|].
    split; [|done]. repeat case_match; congruence. }
  split; [done|]. simpl.
  assert (Forall plain_name s) as Hpl.
  { unfold realpath in Hr. destruct (joinrealpath _ _ _ _ _ _) as [|r]; [done|].
    simpl in Hr. injection Hr as <-. apply normpath_plain. }
  unfold has_nul in Hnul. simpl in Hnul.
  unfold clean. rewrite Forall_forall. intros c Hin. split.
  - rewrite Forall_forall in Hpl. by apply Hpl.
  - destruct (contains NUL c) eqn:E; [|done].
    assert (existsb (contains NUL) s = true) as Hx; [|congruence].
    apply existsb_exists. exists c. split; [|done].
    by apply list_elem_of_In.
Qed.

Lemma resolve_limit fs p q :
  resolve cfg fs p = inr q → (0 < recursion_limit cfg)%nat.
Proof.
  unfold resolve, realpath. destruct (recursion_limit cfg); [done|lia].
Qed.

End OS_facts.

(** ** Modes and their octal text *)

Lemma mode_sum T p :
  Z.land T 4095 = 0 → Z.lor T (Z.land p 4095) = T + p mod 4096.
Proof.
  intros HT.
  pose proof (Z.add_lor_land T (Z.land p 4095)) as H.
  rewrite (Z.land_comm p), Z.land_assoc, HT, Z.land_0_l in H.
  rewrite (Z.land_comm 4095) in H.
  change 4095 with (Z.ones 12) in H. rewrite Z.land_ones in H by lia.
  change (2 ^ 12) with 4096 in H.
  change 4095 with (Z.ones 12). rewrite Z.land_ones by lia.
  change (2 ^ 12) with 4096. lia.
Qed.

Lemma stat_of_mode n :
  4096 ≤ st_mode (stat_of n)
  ∧ ∃ T p, st_mode (stat_of n) = T + p mod 4096 ∧ T mod 4096 = 0.
Proof.
  destruct n as [p t d|p t es|tg]; simpl.
  - rewrite mode_sum by done. unfold S_IFREG. split; [|eexists _, p; done].
    pose proof (Z.mod_pos_bound p 4096). lia.
  - rewrite mode_sum by done. unfold S_IFDIR. split; [|eexists _, p; done].
    pose proof (Z.mod_pos_bound p 4096). lia.
  - split; [done|]. exists S_IFLNK, 511. done.
Qed.

Lemma os_stat_inv cfg fs p st :
  os_stat cfg fs p = inr st → ∃ l n, get fs l = Some n ∧ st = stat_of n
    ∧ namei cfg true fs p = inr (Found l).
Proof.
  unfold os_stat. destruct (namei cfg true fs p) as [e|[l|d c|e]]; try done.
  simpl. destruct (get fs l) as [n|] eqn:E; [|done].
  intros [= <-]. eauto.
Qed.

Lemma oct_digits_last3 fuel m :
  64 ≤ m →
  ∃ pre, oct_digits (S (S (S fuel))) m
         = pre ++ [octdigit (m / 64 mod 8); octdigit (m / 8 mod 8);
                   octdigit (m mod 8)].
Proof.
  intros Hm. cbn [oct_digits].
  assert ((m <? 8) = false) as -> by lia.
  assert ((m / 8 <? 8) = false) as ->
    by (apply Z.ltb_ge; Z.div_mod_to_equations; lia).
  replace (m / 8 / 8) with (m / 64) by (Z.div_mod_to_equations; lia).
  exists (if m / 64 <? 8 then [] else oct_digits fuel (m / 64 / 8)).
  by rewrite <- !app_assoc.
Qed.

Lemma list_ascii_of_string_app s1 s2 :
  list_ascii_of_string (s1 +:+ s2)
  = list_ascii_of_string s1 ++ list_ascii_of_string s2.
Proof.
  induction s1 as [|a s1 IH]; [done|].
  change (String a s1 +:+ s2) with (String a (s1 +:+ s2)).
  cbn [list_ascii_of_string]. by rewrite IH.
Qed.

(** The last three characters of [oct m] are the three low octal digits of
    [m], as soon as [m] has three octal digits. *)
Lemma last_chars_oct m :
  64 ≤ m → last_chars 3 (oct m) = octal3 (m mod 512).
Proof.
  intros Hm. unfold oct, last_chars, octal3.
  assert ((m <? 0) = false) as -> by lia.
  assert (∃ f, Z.to_nat (Z.log2 m) = S (S f)) as [f ->].
  { assert (6 ≤ Z.log2 m) by (apply (Z.log2_le_pow2 m 6); lia).
    exists (Z.to_nat (Z.log2 m) - 2)%nat. lia. }
  destruct (oct_digits_last3 f m Hm) as [pre ->].
  rewrite list_ascii_of_string_app, list_ascii_of_string_of_list_ascii.
  rewrite app_assoc.
  match goal with |- context [drop ?k (?a ++ ?b)] =>
    replace k with (length a) by (rewrite !length_app; simpl; lia) end.
  rewrite drop_app_length.
  assert (m mod 512 / 64 = m / 64 mod 8) as ->
    by (Z.div_mod_to_equations; lia).
  assert (m mod 512 / 8 mod 8 = m / 8 mod 8) as ->
    by (Z.div_mod_to_equations; lia).
  assert (m mod 512 mod 8 = m mod 8) as -> by (Z.div_mod_to_equations; lia).
  done.
Qed.

(** ** The order of paths *)

Lemma String_leb_le a b : String.leb a b = true ↔ String.le a b.
Proof. unfold String.le. by rewrite Is_true_true. Qed.

Lemma parts_le_refl l : parts_le l l = true.
Proof. induction l as [|a l IH]; simpl; [done|]. by rewrite decide_True. Qed.

Lemma parts_le_total l1 l2 : parts_le l1 l2 = true ∨ parts_le l2 l1 = true.
Proof.
  revert l2. induction l1 as [|a l1 IH]; intros [|b l2]; simpl; auto.
  destruct (decide (a = b)) as [->|Hne].
  - rewrite decide_True by done. apply IH.
  - rewrite decide_False by done. rewrite !String_leb_le. apply total, _.
Qed.

Lemma parts_le_trans l1 l2 l3 :
  parts_le l1 l2 = true → parts_le l2 l3 = true → parts_le l1 l3 = true.
Proof.
  revert l2 l3. induction l1 as [|a l1 IH]; intros [|b l2] [|c l3]; simpl;
    try done.
  destruct (decide (a = b)) as [->|Hab]; destruct (decide (b = c)) as [->|Hbc].
  - apply IH.
  - auto.
  - rewrite decide_False by done. auto.
  - rewrite !String_leb_le. intros H1 H2.
    destruct (decide (a = c)) as [->|Hac].
    + destruct Hab. by apply (anti_symm String.le).
    + apply String_leb_le. by etrans.
Qed.

#[global] Instance path_le_total : Total path_le.
Proof. intros p q. apply parts_le_total. Qed.

#[global] Instance path_le_trans : Transitive path_le.
Proof. intros p q r. apply parts_le_trans. Qed.



Lemma path_name_child p c : path_name (child p c) = c.
Proof. unfold path_name, child. simpl. apply last_last. Qed.



(** ** Describing the entries of a directory *)


Lemma os_stat_no_nul cfg fs p st : os_stat cfg fs p = inr st → has_nul p = false.
Proof. unfold os_stat, namei. by destruct (has_nul p). Qed.









Lemma elem_of_keys (es : gmap string node) c :
  c ∈ (map_to_list es).*1 ↔ is_Some (es !! c).
Proof.
  rewrite list_elem_of_fmap. split.
  - intros ([c' n] & -> & Hin%elem_of_map_to_list). simpl. eauto.
  - intros [n Hn]. exists (c, n). split; [done|]. by apply elem_of_map_to_list.
Qed.

Lemma is_dir_inv cfg fs d :
  is_dir cfg fs d = true →
  has_nul d = false ∧
  ∃ loc p t es, namei cfg true fs d = inr (Found loc)
                ∧ get fs loc = Some (Dir p t es).
Proof.
  unfold is_dir. destruct (os_stat cfg fs d) as [e|st] eqn:Hst; [done|].
  intros Hd. split; [by eapply os_stat_no_nul|].
  destruct (os_stat_inv _ _ _ _ Hst) as (l & n & Hg & -> & Hn).
  rewrite S_ISDIR_stat in Hd. destruct n; try done. eauto 10.
Qed.



(** ** Reading *)




Lemma universal_newlines_id s : 13 ∉ s → universal_newlines s = s.
Proof.
  induction s as [|c s IH]; [done|].
  intros [Hc Hs]%not_elem_of_cons. simpl.
  rewrite bool_decide_false by done. by rewrite IH.
Qed.

(** ** What the resolver returns *)

Lemma safe_path_inr cfg fs path r :
  safe_path cfg fs path = inr r →
  ∃ base q,
    resolve cfg fs (path_of (BASE_DIR cfg)) = inr base
    ∧ relative_to r base = inr q
    ∧ r = match resolve cfg fs (truediv base (lstrip SEP (unquote path))) with
          | inr c => c
          | inl _ => truediv base (lstrip SEP (unquote path))
          end.
Proof.
  unfold safe_path.
  assert ((if bool_decide (path = "") then "" else path) = path) as ->
    by (by case_bool_decide).
  destruct (resolve cfg fs (path_of (BASE_DIR cfg))) as [e|base]; [done|].
  simpl.
  destruct (relative_to _ base) as [e|q] eqn:Hrel.
  - by destruct e.
  - simpl. intros [= <-]. eauto.
Qed.


(** ** Paths without links *)

Lemma linkfree_prefix fs l1 l2 : linkfree fs (l1 ++ l2) → linkfree fs l1.
Proof.
  intros H pre t Hp. apply H. by apply prefix_app_r.
Qed.

Lemma linkfree_of_get fs l n :
  get fs l = Some n → is_Symlink n = false → linkfree fs l.
Proof.
  intros Hg Hn pre t [r ->] Hpre.
  destruct r as [|c r].
  - rewrite app_nil_r in Hg. rewrite Hg in Hpre. by injection Hpre as ->.
  - by rewrite (get_below_link _ _ (c :: r) _ Hpre) in Hg.
Qed.

Lemma walk_linkfree fuel follow fs cur comps :
  Forall plain_name comps → linkfree fs (cur ++ comps) →
  is_Some (get fs cur) →
  match get fs (cur ++ comps) with
  | Some _ => walk fuel follow fs cur comps = Found (cur ++ comps)
  | None => (∃ d c, walk fuel follow fs cur comps = Missing d c)
            ∨ walk fuel follow fs cur comps = Fail ENOENT
            ∨ walk fuel follow fs cur comps = Fail ENOTDIR
  end.
Proof.
  intros Hpl. revert cur. induction Hpl as [|c rest Hc _ IH]; intros cur Hlf [n Hn].
  - rewrite app_nil_r, Hn. apply walk_nil.
  - rewrite walk_cons_plain by done.
    replace (cur ++ c :: rest) with ((cur ++ [c]) ++ rest) in *
      by by rewrite <- app_assoc.
    destruct (get fs (cur ++ [c])) as [[p t d|p t es|tg]|] eqn:Hg.
    + destruct rest as [|c' rest'].
      * by rewrite app_nil_r, Hg.
      * rewrite (get_below_file _ _ _ _ _ _ Hg) by done. auto.
    + apply IH; [done|]. by rewrite Hg.
    + destruct (Hlf (cur ++ [c]) tg); [by apply prefix_app_r|done].
    + rewrite (get_below_None _ _ _ Hg). destruct rest; eauto.
Qed.

Section Linkfree.
Context (cfg : config).

Lemma namei_linkfree follow fs l :
  clean l → linkfree fs l →
  match get fs l with
  | Some _ => namei cfg follow fs (mkPath true l) = inr (Found l)
  | None => (∃ d c, namei cfg follow fs (mkPath true l) = inr (Missing d c))
            ∨ namei cfg follow fs (mkPath true l) = inr (Fail ENOENT)
            ∨ namei cfg follow fs (mkPath true l) = inr (Fail ENOTDIR)
  end.
Proof.
  intros Hc Hlf. unfold namei. rewrite clean_no_nul by done.
  cbn [is_absolute parts].
  pose proof (walk_linkfree MAXSYMLINKS follow fs [] l (clean_plain _ Hc) Hlf) as H.
  simpl in H. destruct (get fs l).
  - by rewrite H by eauto.
  - destruct H as [(d & c & ->)|[-> | ->]]; eauto.
Qed.

Lemma os_stat_linkfree fs l :
  clean l → linkfree fs l →
  match get fs l with
  | Some n => os_stat cfg fs (mkPath true l) = inr (stat_of n)
  | None => ∃ e, os_stat cfg fs (mkPath true l) = inl (OSError e) ∧ e ≠ ELOOP
  end.
Proof.
  intros Hc Hlf. pose proof (namei_linkfree true fs l Hc Hlf) as H.
  unfold os_stat. destruct (get fs l) as [n|] eqn:Hg.
  - rewrite H. simpl. by rewrite Hg.
  - destruct H as [(d & c & ->)|[-> | ->]]; simpl; eauto.
Qed.

Lemma os_lstat_linkfree fs l :
  clean l → linkfree fs l →
  match get fs l with
  | Some n => os_lstat cfg fs (mkPath true l) = inr (stat_of n)
  | None => ∃ e, os_lstat cfg fs (mkPath true l) = inl (OSError e)
  end.
Proof.
  intros Hc Hlf. pose proof (namei_linkfree false fs l Hc Hlf) as H.
  unfold os_lstat. destruct (get fs l) as [n|] eqn:Hg.
  - rewrite H. simpl. by rewrite Hg.
  - destruct H as [(d & c & ->)|[-> | ->]]; simpl; eauto.
Qed.

Lemma exists_linkfree fs l :
  clean l → linkfree fs l →
  exists_ cfg fs (mkPath true l) = bool_decide (is_Some (get fs l)).
Proof.
  intros Hc Hlf. pose proof (os_stat_linkfree fs l Hc Hlf) as H.
  unfold exists_. destruct (get fs l) as [n|].
  - rewrite H. by rewrite bool_decide_true.
  - destruct H as (e & -> & _). rewrite bool_decide_false; [done|].
    by intros [? ?].
Qed.

Lemma is_dir_linkfree fs l :
  clean l → linkfree fs l →
  is_dir cfg fs (mkPath true l)
  = match get fs l with Some n => is_Dir n | None => false end.
Proof.
  intros Hc Hlf. pose proof (os_stat_linkfree fs l Hc Hlf) as H.
  unfold is_dir. destruct (get fs l) as [n|].
  - rewrite H. apply S_ISDIR_stat.
  - by destruct H as (e & -> & _).
Qed.

Lemma joinrealpath_linkfree fuel fs active path comps :
  clean (path ++ comps) → linkfree fs (path ++ comps) →
  joinrealpath cfg (S fuel) fs active path comps = inr (path ++ comps, true).
Proof.
  revert path. induction comps as [|c cs IH]; intros path Hc Hlf.
  - by rewrite joinrealpath_nil, app_nil_r.
  - replace (path ++ c :: cs) with ((path ++ [c]) ++ cs) in *
      by by rewrite <- app_assoc.
    pose proof Hc as [Hc1 _]%clean_app.
    pose proof Hc1 as [_ [Hcp _]%Forall_singleton]%clean_app.
    rewrite joinrealpath_cons_plain by done. cbv zeta.
    pose proof (os_lstat_linkfree fs (path ++ [c]) Hc1
                  (linkfree_prefix _ _ _ Hlf)) as H.
    destruct (get fs (path ++ [c])) as [n|] eqn:Hg.
    + rewrite H, S_ISLNK_stat.
      assert (is_Symlink n = false) as ->.
      { destruct n as [| |tg]; try done.
        destruct (Hlf (path ++ [c]) tg); [by apply prefix_app_r|done]. }
      simpl. by apply IH.
    + destruct H as [e ->]. by apply IH.
Qed.

(** A path made of real names, free of NUL and of links, is its own
    canonical form, whether it exists or not. *)
Lemma resolve_linkfree fs l :
  (0 < recursion_limit cfg)%nat → clean l → linkfree fs l →
  resolve cfg fs (mkPath true l) = inr (mkPath true l).
Proof.
  intros Hlim Hc Hlf. unfold resolve, realpath. cbn [is_absolute parts].
  destruct (recursion_limit cfg) as [|k]; [lia|].
  rewrite (joinrealpath_linkfree k fs [] [] l) by done. simpl.
  rewrite normpath_plain_id by by apply clean_plain.
  pose proof (os_stat_linkfree fs l Hc Hlf) as H.
  destruct (get fs l).
  - by rewrite H.
  - destruct H as (e & -> & He). by destruct e.
Qed.

(** The resolver on an input that is already in canonical form. *)
Lemma safe_path_plain fs path rel :
  (0 < recursion_limit cfg)%nat →
  is_absolute (path_of (BASE_DIR cfg)) = true →
  parse_parts (lstrip SEP (unquote path)) = rel →
  clean (parts (path_of (BASE_DIR cfg)) ++ rel) →
  linkfree fs (parts (path_of (BASE_DIR cfg)) ++ rel) →
  safe_path cfg fs path
  = inr (mkPath true (parts (path_of (BASE_DIR cfg)) ++ rel)).
Proof.
  intros Hlim Habs Hrel Hc Hlf. unfold safe_path.
  assert ((if bool_decide (path = "") then "" else path) = path) as ->
    by (by case_bool_decide).
  destruct (path_of (BASE_DIR cfg)) as [a root] eqn:Hroot.
  simpl in Habs, Hc, Hlf. subst a.
  assert (clean root) as Hc0 by (by apply clean_app in Hc as [? ?]).
  assert (linkfree fs root) as Hlf0 by (by eapply linkfree_prefix).
  rewrite (resolve_linkfree fs root) by done.
  simpl. rewrite truediv_relative by apply lstrip_not_startswith.
  simpl. rewrite Hrel. rewrite (resolve_linkfree fs (root ++ rel)) by done.
  destruct (prefix_relative_to (mkPath true (root ++ rel)) (mkPath true root))
    as [q ->]; [done| |done].
  simpl. apply (prefix_cons "/"), prefix_app_r. done.
Qed.

End Linkfree.

(** ** The walk in general: what it went through *)

Lemma dirloc_removelast fs cur : dirloc fs cur → dirloc fs (removelast cur).
Proof.
  destruct cur as [|c cur _] using rev_ind; [done|].
  rewrite removelast_last. intros (p & t & es & H).
  by eapply get_app_Dir.
Qed.

Lemma dirloc_root fs loc : dirloc fs loc → dirloc fs [].
Proof.
  intros (p & t & es & H). apply (get_app_Dir fs [] loc p t es H).
Qed.

(** A walk that arrives somewhere went through a directory before its last
    components; the walk to that directory succeeds too. *)
Lemma walk_prefix fuel fs cur pre rest loc :
  dirloc fs [] → dirloc fs cur → rest ≠ [] →
  walk fuel true fs cur (pre ++ rest) = Found loc →
  ∃ l2, walk fuel true fs cur pre = Found l2 ∧ dirloc fs l2.
Proof.
  intros Hroot. revert cur pre rest loc.
  induction fuel as [fuel IHf] using lt_wf_ind.
  intros cur pre. revert cur.
  induction pre as [|c pre IH]; intros cur rest loc Hcur Hrest H.
  - rewrite walk_nil. eauto.
  - rewrite <- app_comm_cons, walk_cons in H. rewrite walk_cons.
    destruct (bool_decide (c = "") || bool_decide (c = ".")); [by eapply IH|].
    destruct (bool_decide (c = ".."));
      [by eapply IH; [apply dirloc_removelast|..]|].
    assert (pre ++ rest ≠ []) as Hne by (by destruct pre, rest).
    destruct (get fs (cur ++ [c])) as [[p t d|p t es|tg]|] eqn:Hg.
    + by destruct (pre ++ rest).
    + apply (IH (cur ++ [c]) rest loc); [by do 3 eexists|done|done].
    + assert (match pre ++ rest with [] => negb true | _ :: _ => false end
              = false) as Hm by (by destruct (pre ++ rest)).
      rewrite Hm in H.
      assert (match pre with [] => negb true | _ :: _ => false end = false)
        as -> by (by destruct pre).
      destruct (bool_decide (tg = "")); [done|].
      destruct fuel as [|f]; [done|].
      rewrite app_assoc in H.
      apply (IHf f ltac:(lia) _ (split SEP tg ++ pre) rest loc); [|done|done].
      by destruct (startswith SEP tg).
    + by destruct (pre ++ rest).
Qed.

(** Where the walk that follows links arrives, the walk that does not follow
    the last link arrives too. *)
Lemma walk_nofollow fuel fs cur comps l2 :
  walk fuel true fs cur comps = Found l2 →
  ∃ l1, walk fuel false fs cur comps = Found l1.
Proof.
  revert cur comps l2.
  induction fuel as [fuel IHf] using lt_wf_ind.
  intros cur comps. revert cur.
  induction comps as [|c rest IH]; intros cur l2 H.
  - rewrite walk_nil. eauto.
  - rewrite walk_cons in H. rewrite walk_cons.
    destruct (bool_decide (c = "") || bool_decide (c = ".")); [by eapply IH|].
    destruct (bool_decide (c = "..")); [by eapply IH|].
    destruct (get fs (cur ++ [c])) as [[p t d|p t es|tg]|] eqn:Hg.
    + destruct rest; [eauto|done].
    + by eapply IH.
    + destruct rest as [|c' rest']; simpl in *; [eauto|].
      destruct (bool_decide (tg = "")); [done|].
      destruct fuel as [|f]; [done|].
      eapply (IHf f); [lia|done].
    + by destruct rest.
Qed.

(** ** Making directories *)

Section Mkdir.
Context (cfg : config).

Lemma mkdir_parents_eq fuel now fs p :
  mkdir_parents cfg fuel now fs p =
  match os_mkdir cfg now fs p with
  | inr fs' => (fs', inr ())
  | inl (OSError ENOENT) =>
      if bool_decide (parent p = p) then (fs, inl (OSError ENOENT))
      else match fuel with
           | O => (fs, inl RecursionError)
           | S fuel' =>
               match mkdir_parents cfg fuel' now fs (parent p) with
               | (fs1, inr _) => mkdir_one cfg now true fs1 p
               | (fs1, inl e) => (fs1, inl e)
               end
           end
  | inl e =>
      if is_OSError e && is_dir cfg fs p then (fs, inr ()) else (fs, inl e)
  end.
Proof. by destruct fuel. Qed.

Lemma existsb_removelast {A} (f : A → bool) l :
  existsb f l = false → existsb f (removelast l) = false.
Proof.
  destruct l as [|x l _] using rev_ind; [done|].
  rewrite removelast_last, existsb_app. by intros [? _]%orb_false_elim.
Qed.

Lemma has_nul_parent p : has_nul p = false → has_nul (parent p) = false.
Proof. apply existsb_removelast. Qed.

Lemma safe_path_absolute fs path d :
  safe_path cfg fs path = inr d → is_absolute d = true.
Proof.
  intros (base & q & Hb & _ & ->)%safe_path_inr.
  pose proof (resolve_clean _ _ _ _ Hb) as [Ha _].
  destruct (resolve cfg fs (truediv base _)) as [e|c] eqn:Hc.
  - by rewrite truediv_relative by apply lstrip_not_startswith.
  - by apply (resolve_clean _ _ _ _ Hc).
Qed.

(** The parent of a directory that exists is there already: making it
    changes nothing. *)
Lemma mkdir_parents_of_dir fuel now fs d :
  is_absolute d = true → is_dir cfg fs d = true →
  mkdir_parents cfg fuel now fs (parent d) = (fs, inr ()).
Proof.
  intros Habs Hd.
  destruct (is_dir_inv _ _ _ Hd) as (Hn & loc & p & t & es & Hw & Hg).
  assert (dirloc fs []) as Hroot by (apply (dirloc_root fs loc); by do 3 eexists).
  assert (∃ l1 l2, walk MAXSYMLINKS false fs [] (parts (parent d)) = Found l1
                   ∧ walk MAXSYMLINKS true fs [] (parts (parent d)) = Found l2
                   ∧ dirloc fs l2) as (l1 & l2 & H1 & H2 & H3).
  { unfold namei in Hw. rewrite Hn, Habs in Hw. injection Hw as Hw.
    unfold parent. cbn [parts].
    destruct (parts d) as [|c pre _] using rev_ind.
    - exists [], []. rewrite !walk_nil. split; [done|]. split; [done|exact Hroot].
    - rewrite removelast_last.
      destruct (walk_prefix _ fs [] pre [c] loc Hroot Hroot ltac:(done) Hw)
        as (l2 & H2 & H3).
      destruct (walk_nofollow _ _ _ _ _ H2) as [l1 H1].
      exists l1, l2. split; [exact H1|]. split; [exact H2|exact H3]. }
  rewrite mkdir_parents_eq. unfold os_mkdir, namei.
  rewrite (has_nul_parent _ Hn). cbn [is_absolute parent]. rewrite Habs.
  simpl. cbn [parent parts] in H1. rewrite H1. simpl.
  unfold is_dir, os_stat, namei. rewrite (has_nul_parent _ Hn).
  cbn [is_absolute parent]. rewrite Habs. cbn [parent parts] in H2.
  simpl. rewrite H2. simpl. destruct H3 as (p' & t' & es' & ->).
  pose proof (proj1 (S_IS_Dir p' t' es')) as Hdir. simpl in Hdir |- *.
  by rewrite Hdir.
Qed.

End Mkdir.

(** ** The root itself *)

(** Every input without a real component ([""], ["."], ["/"], ...) denotes
    the root, as soon as the root exists. *)
Lemma safe_path_root cfg fs base p t es path :
  resolve cfg fs (path_of (BASE_DIR cfg)) = inr base →
  get fs (parts base) = Some (Dir p t es) →
  parse_parts (lstrip SEP (unquote path)) = [] →
  safe_path cfg fs path = inr base.
Proof.
  intros Hb Hd Hrel.
  destruct (resolve_clean _ _ _ _ Hb) as [Habs Hcl].
  pose proof (resolve_limit _ _ _ _ Hb) as Hlim.
  destruct base as [a l]. simpl in Habs, Hcl, Hd. subst a.
  unfold safe_path.
  assert ((if bool_decide (path = "") then "" else path) = path) as ->
    by (by case_bool_decide).
  rewrite Hb. simpl.
  rewrite truediv_relative by apply lstrip_not_startswith.
  rewrite Hrel. simpl. rewrite app_nil_r.
  rewrite (resolve_canonical cfg fs l (Dir p t es)) by done.
  by destruct (prefix_relative_to (mkPath true l) (mkPath true l)) as [q ->].
Qed.

Lemma rmtree_dir cfg fs l p t es :
  clean l → l ≠ [] → get fs l = Some (Dir p t es) →
  rmtree cfg fs (mkPath true l) = (remove fs l, inr ()).
Proof.
  intros Hc Hne Hg. unfold rmtree.
  rewrite (namei_found _ _ _ _ (Dir p t es)) by auto.
  rewrite Hg. by rewrite bool_decide_false.
Qed.

Lemma get_remove_gone fs l r n :
  l ≠ [] → get fs l = Some n → get (remove fs l) (l ++ r) = None.
Proof.
  intros Hne Hg. destruct l as [|c dir _] using rev_ind; [done|].
  pose proof Hg as (p & t & es & Hd & _)%get_snoc.
  rewrite <- app_assoc. simpl. by eapply get_remove_below.
Qed.

(** ** UTF-8 *)

Ltac zbool :=
  unfold is_cont, is_surrogate in *;
  rewrite ?andb_true_iff, ?andb_false_iff, ?orb_true_iff, ?orb_false_iff,
    ?negb_true_iff, ?negb_false_iff, ?andb_true_iff, ?andb_false_iff,
    ?Z.leb_le, ?Z.ltb_lt, ?Z.leb_gt, ?Z.ltb_ge in *;
  Z.div_mod_to_equations; lia.

Lemma utf8_decode_char c b rest :
  utf8_encode_char c = Some b →
  utf8_decode (b ++ rest) = cs ← utf8_decode rest; Some (c :: cs).
Proof.
  unfold utf8_encode_char.
  destruct (c <? 0) eqn:H0; [done|].
  destruct (c <? 128) eqn:H1.
  { intros [= <-]. cbn [app utf8_decode].
    assert ((0 <=? c) && (c <? 128) = true) as -> by zbool. done. }
  destruct (c <? 2048) eqn:H2.
  { intros [= <-]. cbn [app utf8_decode].
    assert ((0 <=? 192 + c / 64) && (192 + c / 64 <? 128) = false) as ->
      by zbool.
    assert ((194 <=? 192 + c / 64) && (192 + c / 64 <=? 223) = true) as ->
      by zbool.
    assert (is_cont (128 + c mod 64) = true) as -> by zbool.
    assert ((192 + c / 64 - 192) * 64 + (128 + c mod 64 - 128) = c) as ->
      by (Z.div_mod_to_equations; lia).
    done. }
  destruct (c <? 65536) eqn:H3.
  { destruct (is_surrogate c) eqn:Hs; [done|].
    intros [= <-]. cbn [app utf8_decode].
    assert ((0 <=? 224 + c / 4096) && (224 + c / 4096 <? 128) = false) as ->
      by zbool.
    assert ((194 <=? 224 + c / 4096) && (224 + c / 4096 <=? 223) = false) as ->
      by zbool.
    assert ((224 <=? 224 + c / 4096) && (224 + c / 4096 <=? 239) = true) as ->
      by zbool.
    assert ((224 + c / 4096 - 224) * 4096 + (128 + c / 64 mod 64 - 128) * 64
            + (128 + c mod 64 - 128) = c) as ->
      by (Z.div_mod_to_equations; lia).
    assert (is_cont (128 + c / 64 mod 64) = true) as -> by zbool.
    assert (is_cont (128 + c mod 64) = true) as -> by zbool.
    assert ((2048 <=? c) = true) as -> by zbool.
    rewrite Hs. done. }
  destruct (c <? 1114112) eqn:H4; [|done].
  intros [= <-]. cbn [app utf8_decode].
  assert ((0 <=? 240 + c / 262144) && (240 + c / 262144 <? 128) = false) as ->
    by zbool.
  assert ((194 <=? 240 + c / 262144) && (240 + c / 262144 <=? 223) = false)
    as -> by zbool.
  assert ((224 <=? 240 + c / 262144) && (240 + c / 262144 <=? 239) = false)
    as -> by zbool.
  assert ((240 <=? 240 + c / 262144) && (240 + c / 262144 <=? 244) = true)
    as -> by zbool.
  assert ((240 + c / 262144 - 240) * 262144
          + (128 + c / 4096 mod 64 - 128) * 4096
          + (128 + c / 64 mod 64 - 128) * 64 + (128 + c mod 64 - 128) = c)
    as -> by (Z.div_mod_to_equations; lia).
  assert (is_cont (128 + c / 4096 mod 64) = true) as -> by zbool.
  assert (is_cont (128 + c / 64 mod 64) = true) as -> by zbool.
  assert (is_cont (128 + c mod 64) = true) as -> by zbool.
  assert ((65536 <=? c) = true) as -> by zbool.
  rewrite H4. done.
Qed.

(** What UTF-8 encoding writes, strict UTF-8 decoding reads back. *)
Lemma utf8_round_trip s b : utf8_encode s = Some b → utf8_decode b = Some s.
Proof.
  revert b. induction s as [|c s IH]; intros b; simpl.
  - by intros [= <-].
  - destruct (utf8_encode_char c) as [bc|] eqn:Hc; [|done]. simpl.
    destruct (utf8_encode s) as [bs|]; [|done]. simpl. intros [= <-].
    rewrite (utf8_decode_char _ _ _ Hc), (IH bs) by done. done.
Qed.

(** ** Entries kept by a change *)

Lemma keeps_refl fs : keeps fs fs.
Proof. intros q n H. eauto. Qed.

Lemma keeps_trans fs1 fs2 fs3 : keeps fs1 fs2 → keeps fs2 fs3 → keeps fs1 fs3.
Proof.
  intros H12 H23 q n H. destruct (H12 q n H) as (n2 & H2 & E2).
  destruct (H23 q n2 H2) as (n3 & H3 & E3). exists n3. split; [done|].
  congruence.
Qed.

Lemma prefix_snoc_cases {A} (pre l : list A) c r :
  pre `prefix_of` l ++ c :: r →
  pre `prefix_of` l ∨ ∃ r', pre = l ++ c :: r'.
Proof.
  revert pre. induction l as [|a l IH]; intros pre [k Hk]; simpl in *.
  - destruct pre as [|b pre]; [left; apply prefix_nil|].
    right. injection Hk as -> Hk. eauto.
  - destruct pre as [|b pre]; [left; apply prefix_nil|].
    injection Hk as -> Hk.
    destruct (IH pre) as [H|[r' ->]]; [by exists k| |].
    + left. by apply prefix_cons.
    + right. eauto.
Qed.

(** A new entry in a directory keeps everything that was there. *)
Lemma keeps_put_new fs dir c v p t es :
  get fs dir = Some (Dir p t es) → es !! c = None →
  keeps fs (put fs (dir ++ [c]) v).
Proof.
  intros Hd He q n Hq.
  destruct (decide ((dir ++ [c]) `prefix_of` q)) as [[r ->]|Hn1].
  { rewrite <- app_assoc in Hq. simpl in Hq.
    rewrite get_app, Hd in Hq. simpl in Hq. by rewrite He in Hq. }
  destruct (decide (q `prefix_of` (dir ++ [c]))) as [Hp|Hn2].
  - apply prefix_snoc_cases in Hp as [[r Hr]|[r' ->]].
    + subst dir. rewrite <- app_assoc.
      destruct (get_app_Dir _ _ _ _ _ _ Hd) as (p' & t' & es' & Hq').
      rewrite Hq' in Hq. injection Hq as <-.
      destruct (get_put_above fs q (r ++ [c]) v p' t' es') as [es'' ->];
        [by destruct r|done|]. eauto.
    + destruct Hn1. exists r'. by rewrite <- app_assoc.
  - rewrite get_put_other by done. eauto.
Qed.

Lemma linkfree_below_None fs l c r :
  linkfree fs l → get fs (l ++ [c]) = None → linkfree fs (l ++ c :: r).
Proof.
  intros Hl Hn pre t [Hp|[r' ->]]%prefix_snoc_cases; [by apply Hl|].
  replace (l ++ c :: r') with ((l ++ [c]) ++ r') by by rewrite <- app_assoc.
  by rewrite (get_below_None _ _ _ Hn).
Qed.

Section Writing.
Context (cfg : config).

Lemma os_mkdir_missing now fs dir c p t es :
  clean (dir ++ [c]) → get fs dir = Some (Dir p t es) → es !! c = None →
  os_mkdir cfg now fs (mkPath true (dir ++ [c]))
  = inr (put fs (dir ++ [c]) (new_dir cfg now)).
Proof.
  intros Hc Hd He. unfold os_mkdir.
  by rewrite (namei_missing _ _ _ _ _ p t es).
Qed.

Lemma parent_snoc a l c : parent (mkPath a (l ++ [c])) = mkPath a l.
Proof. unfold parent. simpl. by rewrite removelast_last. Qed.

(** [mkdir(parents=True, exist_ok=True)] below an existing directory [anc]:
    the missing directories are made, the last one empty, and nothing that
    existed is lost. *)
Lemma mkdir_parents_creates fuel now fs anc missing pa ta ea :
  clean (anc ++ missing) → get fs anc = Some (Dir pa ta ea) →
  match missing with m :: _ => ea !! m = None | [] => True end →
  (length missing ≤ S fuel)%nat →
  ∃ fs1 p1 t1 es1,
    mkdir_parents cfg fuel now fs (mkPath true (anc ++ missing)) = (fs1, inr ())
    ∧ get fs1 (anc ++ missing) = Some (Dir p1 t1 es1)
    ∧ (missing ≠ [] → es1 = ∅)
    ∧ keeps fs fs1
    ∧ (missing = [] → fs1 = fs).
Proof.
  revert fuel. induction missing as [|m' ms IH] using rev_ind;
    intros fuel Hc Hd Hm Hlen.
  - rewrite app_nil_r in *. exists fs, pa, ta, ea.
    rewrite mkdir_parents_eq. unfold os_mkdir.
    rewrite (namei_found _ _ _ _ (Dir pa ta ea)) by auto. simpl.
    rewrite (is_dir_found _ _ _ (Dir pa ta ea)) by done. simpl.
    split; [done|]. split; [done|]. split; [done|].
    split; [apply keeps_refl|done].
  - destruct ms as [|m ms].
    + simpl in *. exists (put fs (anc ++ [m']) (new_dir cfg now)).
      exists (Z.ldiff 511 (umask cfg)), now, ∅.
      rewrite mkdir_parents_eq, (os_mkdir_missing _ _ _ _ pa ta ea) by done.
      split; [done|]. split; [by eapply get_put_here|]. split; [done|].
      split; [by eapply keeps_put_new|done].
    + rewrite app_assoc in Hc. pose proof Hc as [Hc1 _]%clean_app.
      rewrite length_app in Hlen. simpl in Hlen.
      destruct fuel as [|f]; [lia|].
      destruct (IH f) as (fs1 & p1 & t1 & es1 & Hmk & Hg1 & He1 & Hk1 & _);
        [done|done|done|simpl; lia|].
      rewrite (He1 ltac:(done)) in Hg1.
      exists (put fs1 ((anc ++ m :: ms) ++ [m']) (new_dir cfg now)).
      exists (Z.ldiff 511 (umask cfg)), now, ∅.
      rewrite app_assoc.
      split; [|split; [by eapply get_put_here|split; [done|split]]].
      * rewrite mkdir_parents_eq. unfold os_mkdir at 1, namei.
        rewrite clean_no_nul by done. cbn [is_absolute parts].
        replace ((anc ++ m :: ms) ++ [m']) with (anc ++ m :: (ms ++ [m']))
          by by rewrite <- app_assoc.
        rewrite (walk_enoent _ _ _ [] anc m (ms ++ [m']) pa ta ea).
        -- simpl. unfold parent. cbn [parts is_absolute].
           replace (anc ++ m :: ms ++ [m']) with ((anc ++ m :: ms) ++ [m'])
             by by rewrite <- app_assoc.
           rewrite removelast_last.
           rewrite bool_decide_false.
           2:{ intros [= H]. apply (f_equal length) in H.
               rewrite !length_app in H. simpl in H. lia. }
           rewrite Hmk. unfold mkdir_one.
           by rewrite (os_mkdir_missing _ _ _ _ p1 t1 ∅).
        -- apply clean_plain. by apply clean_app in Hc1 as [? _].
        -- apply clean_app in Hc1 as [_ H]. apply Forall_cons in H as [[? _] _].
           done.
        -- by destruct ms.
        -- done.
        -- done.
      * eapply keeps_trans; [exact Hk1|]. by eapply keeps_put_new.
      * intros H. by destruct ms.
Qed.

Lemma codecs_lookup_utf8 : codecs_lookup "utf-8" = Some Utf8.
Proof. reflexivity. Qed.

(** Writing text to a name that is free, or taken by a regular file, in an
    existing directory. *)
Lemma write_text_file now fs dir f pd td ed data bytes :
  clean (dir ++ [f]) → get fs dir = Some (Dir pd td ed) →
  (ed !! f = None ∨ ∃ pm t d, ed !! f = Some (File pm t d)) →
  utf8_encode data = Some bytes →
  ∃ fs2 pm,
    write_text cfg now fs (mkPath true (dir ++ [f])) data "utf-8" = (fs2, inr ())
    ∧ get fs2 (dir ++ [f]) = Some (File pm now bytes).
Proof.
  intros Hc Hd Hf He. unfold write_text, open_w.
  rewrite codecs_lookup_utf8. cbn [encode]. rewrite He.
  destruct Hf as [Hf|(pm & t & d & Hf)].
  - rewrite (namei_missing _ _ _ _ _ pd td ed) by done.
    cbn [mbind sum_bind].
    unfold set_data. rewrite (get_put_here _ _ _ _ _ _ _ Hd).
    unfold new_file at 1.
    eexists _, _. split; [done|].
    eapply get_put_here. by eapply put_snoc.
  - assert (get fs (dir ++ [f]) = Some (File pm t d)) as Hg
      by (apply get_snoc; eauto).
    rewrite (namei_found _ _ _ _ (File pm t d)) by auto.
    cbn [mbind sum_bind]. rewrite Hg.
    unfold set_data. rewrite (get_put_here _ _ _ _ _ _ _ Hd).
    eexists _, _. split; [done|].
    eapply get_put_here. by eapply put_snoc.
Qed.

Lemma read_text_file fs l pm t bytes :
  clean l → get fs l = Some (File pm t bytes) →
  read_text cfg fs (mkPath true l)
  = match utf8_decode bytes with
    | Some s => inr (universal_newlines s)
    | None => inl UnicodeDecodeError
    end.
Proof.
  intros Hc Hg. unfold read_text, read_file_node.
  rewrite (namei_found _ _ _ _ (File pm t bytes)) by auto. simpl.
  by rewrite Hg.
Qed.

End Writing.

(** ** Copying *)

Lemma frame_refl dl fs : frame dl fs fs.
Proof. split; [done|]. intros q n _ _ H. by exists n. Qed.

Lemma frame_trans dl fs1 fs2 fs3 :
  frame dl fs1 fs2 → frame dl fs2 fs3 → frame dl fs1 fs3.
Proof.
  intros [F1 A1] [F2 A2]. split.
  - intros q H1 H2. by rewrite F2, F1.
  - intros q n Hp Hne Hg. destruct (A1 q n Hp Hne Hg) as (n1 & Hg1 & Ha1).
    destruct (A2 q n1 Hp Hne Hg1) as (n2 & Hg2 & Ha2).
    exists n2. split; [done|]. congruence.
Qed.

Lemma prefix_app_same {A} (l r : list A) : l ++ r `prefix_of` l → r = [].
Proof.
  intros H%prefix_length. rewrite length_app in H.
  destruct r; [done|simpl in H; lia].
Qed.

Lemma frame_below dl r fs fs' : frame (dl ++ r) fs fs' → frame dl fs fs'.
Proof.
  intros [F A]. split.
  - intros q H1 H2. apply F.
    + intros H. apply H1. etrans; [|exact H]. by apply prefix_app_r.
    + intros H.
      destruct (prefix_weak_total q dl (dl ++ r) H) as [?|?];
        [by apply prefix_app_r|done|done].
  - intros q n Hp Hne Hg. apply A; [by apply prefix_app_r| |done].
    intros ->. apply Hne. apply prefix_app_same in Hp as ->.
    by rewrite app_nil_r.
Qed.

Lemma prefix_snoc_strict {A} (q l : list A) c :
  q `prefix_of` l ++ [c] → q ≠ l ++ [c] → q `prefix_of` l.
Proof.
  intros [r Hr] Hne. destruct r as [|x r _] using rev_ind.
  - rewrite app_nil_r in Hr. by subst.
  - rewrite app_assoc in Hr. apply app_inj_tail in Hr as [-> _]. by exists r.
Qed.

Lemma frame_put fs dir c v p t es :
  get fs dir = Some (Dir p t es) → frame (dir ++ [c]) fs (put fs (dir ++ [c]) v).
Proof.
  intros Hd. split.
  - intros q H1 H2. by apply get_put_other.
  - intros q n Hp Hne Hg.
    destruct (prefix_snoc_strict _ _ _ Hp Hne) as [r ->].
    destruct r as [|x r].
    + rewrite app_nil_r in *. rewrite Hd in Hg. injection Hg as <-.
      rewrite (put_snoc _ _ _ _ _ _ _ Hd). by eexists.
    + destruct (get_prefix_Dir _ _ _ _ Hd ltac:(done)) as (p' & t' & es' & Hq).
      rewrite Hq in Hg. injection Hg as <-.
      destruct (get_put_above fs q ((x :: r) ++ [c]) v p' t' es')
        as [es'' H]; [done|done|].
      rewrite app_assoc in H. by exists (Dir p' t' es'').
Qed.

Lemma put_attr fs dl p t es p' t' :
  dl ≠ [] → get fs dl = Some (Dir p t es) →
  get (put fs dl (Dir p' t' es)) dl = Some (Dir p' t' es)
  ∧ frame dl fs (put fs dl (Dir p' t' es))
  ∧ ∀ r, r ≠ [] → get (put fs dl (Dir p' t' es)) (dl ++ r) = get fs (dl ++ r).
Proof.
  intros Hne Hd. destruct dl as [|c dir _] using rev_ind; [done|].
  destruct (get_prefix_Dir _ _ _ _ Hd ltac:(done)) as (pd & td & ed & Hdir).
  split; [by eapply get_put_here|]. split; [by eapply frame_put|].
  intros r Hr. rewrite <- app_assoc. simpl.
  rewrite (get_put_below _ _ _ _ _ _ _ _ Hdir).
  replace (dir ++ c :: r) with ((dir ++ [c]) ++ r) by by rewrite <- app_assoc.
  rewrite get_app, Hd. simpl. by destruct r.
Qed.

Lemma land_dir_mode p :
  Z.land (Z.lor S_IFDIR (Z.land p 4095)) 4095 = Z.land p 4095.
Proof.
  rewrite Z.land_lor_distr_l, <- Z.land_assoc.
  change (Z.land S_IFDIR 4095) with 0. change (Z.land 4095 4095) with 4095.
  apply Z.lor_0_l.
Qed.

Section Copying.
Context (cfg : config).

Lemma os_stat_absent fs anc m r p t es :
  clean (anc ++ m :: r) → get fs anc = Some (Dir p t es) → es !! m = None →
  os_stat cfg fs (mkPath true (anc ++ m :: r)) = inl (OSError ENOENT).
Proof.
  intros Hc Hd Hm. destruct r as [|x r].
  - by eapply os_stat_missing.
  - unfold os_stat, namei. rewrite clean_no_nul by done. simpl.
    pose proof Hc as [Hc1 Hc2]%clean_app.
    apply Forall_cons in Hc2 as [[Hm1 _] _].
    rewrite (walk_enoent _ _ _ [] anc m (x :: r) p t es);
      [done|by apply clean_plain|done|done|done|done].
Qed.

Lemma makedirs_eq fuel now fs p :
  makedirs cfg fuel now fs p
  = let '(fs1, r) :=
      if negb (bool_decide (parts p = [])) && negb (exists_ cfg fs (parent p))
      then match fuel with
           | O => (fs, inl RecursionError)
           | S fuel' =>
               match makedirs cfg fuel' now fs (parent p) with
               | (fs1, inl (OSError EEXIST)) => (fs1, inr ())
               | r => r
               end
           end
      else (fs, inr ()) in
    match r with
    | inl e => (fs1, inl e)
    | inr _ =>
        match os_mkdir cfg now fs1 p with
        | inr fs2 => (fs2, inr ())
        | inl e =>
            if is_OSError e && is_dir cfg fs1 p then (fs1, inr ())
            else (fs1, inl e)
        end
    end.
Proof. by destruct fuel. Qed.

(** [makedirs] on [anc/missing...], where [anc] is a directory and the
    first of [missing] is not there: the missing directories are made, the
    last one empty; nothing else changes. *)
Lemma makedirs_creates fuel now fs anc missing pa ta ea :
  clean (anc ++ missing) → get fs anc = Some (Dir pa ta ea) →
  match missing with m :: _ => ea !! m = None | [] => True end →
  (length missing ≤ S fuel)%nat →
  ∃ fs1 p1 t1 es1,
    makedirs cfg fuel now fs (mkPath true (anc ++ missing)) = (fs1, inr ())
    ∧ get fs1 (anc ++ missing) = Some (Dir p1 t1 es1)
    ∧ (missing ≠ [] → es1 = ∅)
    ∧ (missing = [] → fs1 = fs)
    ∧ (∀ q, ¬ q `prefix_of` anc ++ missing → get fs1 q = get fs q)
    ∧ keeps fs fs1.
Proof.
  revert fuel. induction missing as [|m' ms IH] using rev_ind;
    intros fuel Hc Hd Hm Hlen.
  - rewrite app_nil_r in *. exists fs, pa, ta, ea.
    split; [|split; [done|split; [done|split; [done|split;
      [done|apply keeps_refl]]]]].
    rewrite makedirs_eq.
    assert ((if negb (bool_decide (parts (mkPath true anc) = []))
                && negb (exists_ cfg fs (parent (mkPath true anc)))
             then match fuel with
                  | O => (fs, inl RecursionError)
                  | S fuel' =>
                      match makedirs cfg fuel' now fs (parent (mkPath true anc)) with
                      | (fs1, inl (OSError EEXIST)) => (fs1, inr ())
                      | r => r
                      end
                  end
             else (fs, inr ())) = (fs, inr ())) as ->.
    { destruct anc as [|c l _] using rev_ind; [done|].
      rewrite parent_snoc.
      destruct (get_prefix_Dir _ _ _ _ Hd ltac:(done)) as (p' & t' & es' & Hl).
      apply clean_app in Hc as [Hc _].
      rewrite (exists_found _ _ _ (Dir p' t' es')) by done.
      cbn [parts]. by rewrite bool_decide_false by by apply snoc_not_nil. }
    unfold os_mkdir. rewrite (namei_found _ _ _ _ (Dir pa ta ea)) by auto.
    simpl. by rewrite (is_dir_found _ _ _ (Dir pa ta ea)).
  - rewrite app_assoc in Hc. pose proof Hc as [Hc1 _]%clean_app.
    rewrite app_assoc, makedirs_eq, parent_snoc.
    cbn [parts]. rewrite bool_decide_false by by apply snoc_not_nil.
    destruct ms as [|m ms].
    + rewrite app_nil_r in *. simpl in Hm.
      rewrite (exists_found _ _ _ (Dir pa ta ea)) by done. simpl.
      rewrite (os_mkdir_missing _ _ _ _ _ pa ta ea) by done.
      exists (put fs (anc ++ [m']) (new_dir cfg now)).
      exists (Z.ldiff 511 (umask cfg)), now, ∅.
      split; [done|]. split; [by eapply get_put_here|]. split; [done|].
      split; [done|]. split; [|by eapply keeps_put_new].
      intros q Hq. destruct (decide (anc ++ [m'] `prefix_of` q)) as [[r ->]|Hn].
      * destruct r as [|x r]; [by rewrite app_nil_r in Hq|].
        rewrite <- app_assoc. simpl.
        rewrite (get_put_below _ _ _ _ _ _ _ _ Hd).
        replace (anc ++ m' :: x :: r) with ((anc ++ [m']) ++ x :: r)
          by by rewrite <- app_assoc.
        by rewrite (get_below_None _ _ _ (get_snoc_None _ _ _ _ _ _ Hd Hm)).
      * by apply get_put_other.
    + simpl in Hm. rewrite length_app in Hlen. simpl in Hlen.
      destruct fuel as [|f]; [lia|].
      unfold exists_ at 1.
      rewrite (os_stat_absent _ _ _ _ pa ta ea) by done. simpl.
      destruct (IH f) as (fs1 & p1 & t1 & es1 & Hmk & Hg1 & He1 & _ & Hf1 & Hk1);
        [done|done|done|simpl; lia|].
      rewrite Hmk. rewrite (He1 ltac:(done)) in Hg1.
      rewrite (os_mkdir_missing _ _ _ _ _ p1 t1 ∅) by done.
      exists (put fs1 ((anc ++ m :: ms) ++ [m']) (new_dir cfg now)).
      exists (Z.ldiff 511 (umask cfg)), now, ∅.
      split; [done|]. split; [by eapply get_put_here|]. split; [done|].
      split; [by destruct ms|]. split.
      * intros q Hq.
        destruct (decide ((anc ++ m :: ms) ++ [m'] `prefix_of` q))
          as [[r ->]|Hn].
        -- destruct r as [|x r]; [by rewrite app_nil_r in Hq|].
           rewrite <- (app_assoc _ [m']). simpl.
           rewrite (get_put_below _ _ _ _ _ _ _ _ Hg1). simpl.
           rewrite <- !app_assoc. simpl.
           replace (anc ++ m :: ms ++ m' :: x :: r)
             with ((anc ++ [m]) ++ ms ++ m' :: x :: r)
             by by rewrite <- app_assoc.
           by rewrite (get_below_None _ _ _ (get_snoc_None _ _ _ _ _ _ Hd Hm)).
        -- rewrite get_put_other by done. apply Hf1.
           intros H. apply Hq. by apply prefix_app_r.
      * eapply keeps_trans; [exact Hk1|]. by eapply keeps_put_new.
Qed.

Lemma is_dir_absent fs dir c p t es :
  clean (dir ++ [c]) → get fs dir = Some (Dir p t es) → es !! c = None →
  is_dir cfg fs (mkPath true (dir ++ [c])) = false.
Proof. intros. unfold is_dir. by rewrite (os_stat_missing _ _ _ _ p t es). Qed.

(** [copy2] of a regular file to a name that is free, or taken by a
    regular file, in an existing directory. *)
Lemma copy2_file now fs sl dir c pm t d pd td ed :
  clean sl → get fs sl = Some (File pm t d) →
  clean (dir ++ [c]) → get fs dir = Some (Dir pd td ed) →
  (ed !! c = None ∨ ∃ pm' t' d', ed !! c = Some (File pm' t' d')) →
  sl ≠ dir ++ [c] →
  ∃ fs', copy2 cfg now fs (mkPath true sl) (mkPath true (dir ++ [c]))
         = (fs', inr ())
    ∧ get fs' (dir ++ [c]) = Some (File pm t d)
    ∧ frame (dir ++ [c]) fs fs'.
Proof.
  intros Hcs Hs Hcd Hd Hc Hne. unfold copy2.
  assert (read_file_node cfg fs (mkPath true sl) = inr (pm, t, d)) as Hr.
  { unfold read_file_node.
    rewrite (namei_found _ _ _ _ (File pm t d)) by auto. simpl. by rewrite Hs. }
  destruct Hc as [Hc|(pm' & t' & d' & Hc)].
  - rewrite (is_dir_absent _ _ _ pd td ed) by done.
    unfold samefile. rewrite (namei_found _ _ _ _ (File pm t d)) by auto.
    rewrite (namei_missing _ _ _ _ _ pd td ed) by done.
    rewrite Hr. unfold open_w.
    rewrite (namei_missing _ _ _ _ _ pd td ed) by done. simpl.
    eexists. split; [done|]. split.
    + eapply get_put_here. by eapply put_snoc.
    + eapply frame_trans; [by eapply frame_put|].
      eapply frame_put. by eapply put_snoc.
  - assert (get fs (dir ++ [c]) = Some (File pm' t' d')) as Hg.
    { apply get_snoc. by exists pd, td, ed. }
    rewrite (is_dir_found _ _ _ (File pm' t' d')) by done. simpl.
    unfold samefile. rewrite (namei_found _ _ _ _ (File pm t d)) by auto.
    rewrite (namei_found _ _ _ _ (File pm' t' d')) by auto.
    rewrite bool_decide_false by done.
    rewrite Hr. unfold open_w.
    rewrite (namei_found _ _ _ _ (File pm' t' d')) by auto. simpl.
    rewrite Hg.
    eexists. split; [done|]. split.
    + eapply get_put_here. by eapply put_snoc.
    + eapply frame_trans; [by eapply frame_put|].
      eapply frame_put. by eapply put_snoc.
Qed.

Lemma copystat_dir fs sl dl ps ts es pd td ed :
  clean sl → clean dl →
  get fs sl = Some (Dir ps ts es) → get fs dl = Some (Dir pd td ed) →
  copystat cfg fs (mkPath true sl) (mkPath true dl)
  = (put fs dl (Dir (Z.land ps 4095) ts ed), inr ()).
Proof.
  intros Hcs Hcd Hs Hd. unfold copystat.
  rewrite (os_stat_found _ _ _ (Dir ps ts es)) by done.
  rewrite (namei_found _ _ _ _ (Dir pd td ed)) by auto.
  rewrite Hd. simpl. by rewrite land_dir_mode.
Qed.

Lemma copytree_S fuel now fs src dst :
  copytree cfg (S fuel) now fs src dst
  = match iterdir cfg fs src with
    | inl e => (fs, inl e)
    | inr entries =>
        match makedirs cfg (recursion_limit cfg) now fs dst with
        | (fs1, inl e) => (fs1, inl e)
        | (fs1, inr _) =>
            let '(fs2, r) :=
              copy_entries cfg (copytree cfg fuel now) now dst entries fs1 [] in
            match r with
            | inl e => (fs2, inl e)
            | inr errors =>
                let '(fs3, r3) := copystat cfg fs2 src dst in
                match r3, errors with
                | inr _, [] => (fs3, inr ())
                | _, _ => (fs3, inl ShutilError)
                end
            end
        end
    end.
Proof. reflexivity. Qed.

Lemma copy_entries_cons rec now dst srcname l fs errors :
  copy_entries cfg rec now dst (srcname :: l) fs errors
  = let dstname := child dst (path_name srcname) in
    let '(fs', r) :=
      if is_dir cfg fs srcname
      then rec fs srcname dstname
      else copy2 cfg now fs srcname dstname in
    match r with
    | inr _ => copy_entries cfg rec now dst l fs' errors
    | inl e =>
        if is_OSError e
        then copy_entries cfg rec now dst l fs' (errors ++ [(srcname, e)])
        else (fs', inl e)
    end.
Proof. reflexivity. Qed.

Lemma apart_app {A} (sl dl x y : list A) :
  ¬ sl `prefix_of` dl → ¬ dl `prefix_of` sl → ¬ sl ++ x `prefix_of` dl ++ y.
Proof.
  intros H1 H2 H.
  destruct (prefix_weak_total sl dl (dl ++ y)) as [?|?]; [|by apply prefix_app_r|done|done].
  etrans; [|exact H]. by apply prefix_app_r.
Qed.

Lemma sibling_apart {A} (dl : list A) c c' r r' :
  c ≠ c' → ¬ dl ++ c :: r `prefix_of` dl ++ c' :: r'.
Proof.
  intros Hne H%prefix_app_inv. by apply prefix_cons_inv_1 in H.
Qed.

Section Copy_loop.
Context (fuel : nat) (now : Z).
Hypothesis IH : copytree_merges cfg fuel now.

(** One entry of the source directory: a directory by the recursive call,
    a regular file by [copy2]. *)
Lemma copy_step fs sl dl c n :
  get fs (sl ++ [c]) = Some n →
  copyable fuel fs (sl ++ [c]) (dl ++ [c]) →
  ¬ sl `prefix_of` dl → ¬ dl `prefix_of` sl →
  clean dl → dirloc fs dl →
  ∃ fs',
    (if is_dir cfg fs (mkPath true (sl ++ [c]))
     then copytree cfg fuel now fs (mkPath true (sl ++ [c])) (mkPath true (dl ++ [c]))
     else copy2 cfg now fs (mkPath true (sl ++ [c])) (mkPath true (dl ++ [c])))
    = (fs', inr ())
    ∧ frame (dl ++ [c]) fs fs'
    ∧ merged (sl ++ [c]) (dl ++ [c]) fs fs'.
Proof.
  intros Hn (Hpt & Hfit & Hdepth) Hsd Hds Hcd (pd & td & ed & Hd).
  destruct (Hpt [] n) as [Hsym Hcs]; [by rewrite app_nil_r|].
  rewrite app_nil_r in Hcs.
  assert (clean (dl ++ [c])) as Hcdc.
  { apply clean_app. split; [done|]. by apply clean_app in Hcs as [_ H]. }
  assert (sl ++ [c] ≠ dl ++ [c]) as Hne.
  { intros [-> _]%app_inj_tail. by apply Hsd. }
  rewrite (is_dir_found _ _ _ n) by done.
  destruct n as [pm t d|p t es|tg]; [| |done]; simpl.
  - assert (ed !! c = None ∨ ∃ pm' t' d', ed !! c = Some (File pm' t' d')) as Hc.
    { destruct (ed !! c) as [m|] eqn:Hm; [right|by left].
      assert (get fs (dl ++ [c]) = Some m) as Hgm.
      { apply get_snoc. by exists pd, td, ed. }
      destruct (Hfit [] (File pm t d) m) as [Hms Hmd];
        rewrite ?app_nil_r; [done|done|].
      destruct m; try done. eauto. }
    destruct (copy2_file now fs (sl ++ [c]) dl c pm t d pd td ed)
      as (fs' & Hcp & Hg' & Hfr); [done|done|done|done|done|done|].
    exists fs'. split; [done|]. split; [done|]. split.
    + intros r n' Hr. destruct r as [|x r].
      * rewrite app_nil_r in *. rewrite Hn in Hr. injection Hr as <-.
        by exists (File pm t d).
      * by rewrite (get_below_file _ _ (x :: r) _ _ _ Hn) in Hr.
    + intros r n' Hr Hnone. destruct r as [|x r].
      * rewrite app_nil_r in Hnone. congruence.
      * exfalso. destruct Hc as [Hc|(pm' & t' & d' & Hc)].
        -- rewrite (get_below_None _ (dl ++ [c]) (x :: r)) in Hr; [done|].
           by eapply get_snoc_None.
        -- rewrite (get_below_file _ (dl ++ [c]) (x :: r) pm' t' d') in Hr;
             [done| |done].
           apply get_snoc. by exists pd, td, ed.
  - assert (∀ r p0 t0 e0,
              get fs ((sl ++ [c]) ++ r) = Some (Dir p0 t0 e0) →
              (length r < fuel)%nat) as Hdepth' by done.
    assert (¬ sl ++ [c] `prefix_of` dl ++ [c]) as Ha1 by by apply apart_app.
    assert (¬ dl ++ [c] `prefix_of` sl ++ [c]) as Ha2 by by apply apart_app.
    destruct (ed !! c) as [m|] eqn:Hm.
    + assert (get fs (dl ++ [c]) = Some m) as Hgm.
      { apply get_snoc. by exists pd, td, ed. }
      destruct (Hfit [] (Dir p t es) m) as [Hms Hmd];
        rewrite ?app_nil_r; [done|done|].
      destruct m as [|pm tm em|]; try done.
      apply (IH fs (sl ++ [c]) (dl ++ [c]) (dl ++ [c]) [] pm tm em p t es);
        try done; [by rewrite app_nil_r|simpl; lia].
    + apply (IH fs (sl ++ [c]) (dl ++ [c]) dl [c] pd td ed p t es);
        try done. simpl; lia.
Qed.

Lemma copyable_agree fs fs' sl dl :
  (∀ r, get fs' (sl ++ r) = get fs (sl ++ r)) →
  (∀ r, get fs' (dl ++ r) = get fs (dl ++ r)) →
  copyable fuel fs sl dl → copyable fuel fs' sl dl.
Proof.
  intros Hs Hd (Hpt & Hfit & Hdepth). split; [|split].
  - intros r n. rewrite Hs. apply Hpt.
  - intros r n m. rewrite Hs, Hd. apply Hfit.
  - intros r p t es. rewrite Hs. apply Hdepth.
Qed.

(** The loop over the entries [names] of the source directory. *)
Lemma copy_loop names : ∀ fs sl dl,
  NoDup names → clean dl → dirloc fs dl →
  ¬ sl `prefix_of` dl → ¬ dl `prefix_of` sl →
  (∀ c, c ∈ names →
     is_Some (get fs (sl ++ [c])) ∧ copyable fuel fs (sl ++ [c]) (dl ++ [c])) →
  ∃ fs',
    copy_entries cfg (copytree cfg fuel now) now (mkPath true dl)
      (child (mkPath true sl) <$> names) fs [] = (fs', inr [])
    ∧ (∀ q, ¬ q `prefix_of` dl → (∀ c r, c ∈ names → q ≠ dl ++ c :: r) →
         get fs' q = get fs q)
    ∧ (∀ q n, q `prefix_of` dl → get fs q = Some n →
         ∃ n', get fs' q = Some n' ∧ attr n' = attr n)
    ∧ (∀ c, c ∈ names → merged (sl ++ [c]) (dl ++ [c]) fs fs').
Proof.
  induction names as [|c names IHn]; intros fs sl dl Hnd Hcd Hdl Hsd Hds Hall.
  - exists fs. split; [done|]. split; [done|].
    split; [intros q n _ H; by exists n|]. intros c H. by apply elem_of_nil in H.
  - apply NoDup_cons in Hnd as [Hc Hnd].
    destruct (Hall c) as [[n Hn] Hcp]; [by left|].
    destruct (copy_step fs sl dl c n Hn Hcp Hsd Hds Hcd Hdl)
      as (fs1 & Hstep & [F1 A1] & Hmg).
    rewrite fmap_cons, copy_entries_cons, path_name_child.
    change (child (mkPath true sl) c) with (mkPath true (sl ++ [c])).
    change (child (mkPath true dl) c) with (mkPath true (dl ++ [c])).
    cbv zeta. rewrite Hstep.
    assert (∀ r, get fs1 (sl ++ r) = get fs (sl ++ r)) as Hsrc.
    { intros r. apply F1; by apply apart_app. }
    assert (∀ c' r, c' ≠ c → get fs1 (dl ++ c' :: r) = get fs (dl ++ c' :: r))
      as Hsib.
    { intros c' r Hne. apply F1.
      - by apply sibling_apart.
      - by apply sibling_apart. }
    assert (dirloc fs1 dl) as Hdl1.
    { destruct Hdl as (pd & td & ed & Hd).
      destruct (A1 dl (Dir pd td ed)) as (n' & Hg & Ha);
        [by apply prefix_app_r| |done|].
      { intros H. apply (f_equal length) in H.
        rewrite length_app in H. simpl in H. lia. }
      destruct n'; try done. by do 3 eexists. }
    destruct (IHn fs1 sl dl Hnd Hcd Hdl1 Hsd Hds)
      as (fs' & Hloop & F2 & A2 & M2).
    { intros c' Hc'. destruct (Hall c') as [Hsome Hcp']; [by right|].
      assert (c' ≠ c) by (intros ->; done).
      split.
      - by rewrite Hsrc.
      - eapply copyable_agree; [| |exact Hcp'].
        + intros r. rewrite <- !app_assoc. apply Hsrc.
        + intros r. rewrite <- !app_assoc. simpl. by apply Hsib. }
    exists fs'. split; [done|]. split; [|split].
    + intros q Hq Hnot. rewrite F2; [|done|].
      * apply F1.
        -- intros [r ->]. rewrite <- app_assoc in Hnot. simpl in Hnot.
           apply (Hnot c r); [by left|done].
        -- intros H. destruct (decide (q = dl ++ [c])) as [->|Hne].
           ++ apply (Hnot c []); [by left|done].
           ++ apply Hq. by eapply prefix_snoc_strict.
      * intros c' r Hc'. apply Hnot. by right.
    + intros q n' Hq Hg.
      destruct (A1 q n') as (n1 & Hg1 & Ha1); [by apply prefix_app_r| |done|].
      { intros ->. by apply prefix_app_same in Hq. }
      destruct (A2 q n1 Hq Hg1) as (n2 & Hg2 & Ha2).
      exists n2. split; [done|congruence].
    + intros c' [->|Hc']%elem_of_cons.
      * assert (∀ r, get fs' (dl ++ c :: r) = get fs1 (dl ++ c :: r)) as Hex.
        { intros r. apply F2.
          - by intros H%prefix_app_same.
          - intros c'' r'' Hc'' Heq. apply app_inv_head in Heq.
            injection Heq as -> _. done. }
        destruct Hmg as [Ma Mb]. split.
        -- intros r n' Hr. destruct (Ma r n' Hr) as (n1 & Hg1 & Ha1).
           exists n1. split; [|done].
           rewrite <- app_assoc in *. simpl in *. by rewrite Hex.
        -- intros r n' Hr Hnone. destruct (Mb r n' Hr Hnone) as (n1 & Hg1 & Ha1).
           exists n1. split; [|done].
           rewrite <- app_assoc in *. simpl in *. by rewrite Hex.
      * destruct (M2 c' Hc') as [Ma Mb].
        assert (c' ≠ c) by (intros ->; done). split.
        -- intros r n' Hr. apply Ma. rewrite <- app_assoc in *. by rewrite Hsrc.
        -- intros r n' Hr Hnone. apply Mb.
           ++ rewrite <- app_assoc in *. simpl in *. by rewrite Hsib.
           ++ rewrite <- app_assoc in *. by rewrite Hsrc.
Qed.

End Copy_loop.

(** [copytree] of a directory without links onto a place apart from it:
    the tree is copied, what the destination held beside it stays. *)
Lemma copytree_merge fuel now : copytree_merges cfg fuel now.
Proof.
  induction fuel as [|fuel IH];
    intros fs sl dl anc missing pa ta ea ps ts es
      Hs (Hpt & Hfit & Hdepth) Hsd Hds -> Hcd Ha Hm Hlen.
  { specialize (Hdepth [] ps ts es). rewrite app_nil_r in Hdepth.
    specialize (Hdepth Hs). simpl in Hdepth. lia. }
  rewrite copytree_S.
  destruct (Hpt [] (Dir ps ts es)) as [_ Hcs]; [by rewrite app_nil_r|].
  rewrite app_nil_r in Hcs.
  unfold iterdir. rewrite (namei_found _ _ _ _ (Dir ps ts es)) by auto.
  simpl. rewrite Hs.
  destruct (makedirs_creates (recursion_limit cfg) now fs anc missing
              pa ta ea Hcd Ha Hm Hlen)
    as (fs1 & p1 & t1 & es1 & Hmk & Hg1 & _ & _ & Hf1 & Hk1).
  rewrite Hmk.
  set (dl := anc ++ missing) in *.
  assert (dl ≠ []) as Hdne.
  { intros H. apply Hds. rewrite H. apply prefix_nil. }
  assert (∀ r, get fs1 (sl ++ r) = get fs (sl ++ r)) as Hsrc1.
  { intros r. apply Hf1. intros H. apply Hsd.
    etrans; [|exact H]. by apply prefix_app_r. }
  assert (∀ r, r ≠ [] → get fs1 (dl ++ r) = get fs (dl ++ r)) as Hdst1.
  { intros r Hr. apply Hf1. by intros H%prefix_app_same. }
  destruct (copy_loop fuel now IH ((map_to_list es).*1) fs1 sl dl)
    as (fs2 & Hloop & F2 & A2 & M2).
  { apply NoDup_fst_map_to_list. }
  { done. }
  { by exists p1, t1, es1. }
  { done. }
  { done. }
  { intros c [n Hc]%elem_of_keys.
    assert (get fs (sl ++ [c]) = Some n) as Hn.
    { apply get_snoc. by exists ps, ts, es. }
    split; [rewrite Hsrc1; eauto|].
    apply (copyable_agree _ fs).
    - intros r. rewrite <- app_assoc. apply Hsrc1.
    - intros r. rewrite <- app_assoc. by apply Hdst1.
    - split; [|split].
      + intros r n'. rewrite <- app_assoc. apply Hpt.
      + intros r n' m. rewrite <- !app_assoc. apply Hfit.
      + intros r p t e Hr. rewrite <- app_assoc in Hr.
        apply Hdepth in Hr. simpl in Hr. lia. }
  rewrite Hloop.
  destruct (A2 dl (Dir p1 t1 es1)) as (n2 & Hg2 & Hattr2); [done|done|].
  destruct n2 as [|p2 t2 es2|]; try done.
  assert (get fs2 sl = Some (Dir ps ts es)) as Hs2.
  { rewrite F2.
    - rewrite <- (app_nil_r sl), Hsrc1. by rewrite app_nil_r.
    - done.
    - intros c r _ ->. apply Hds. by apply prefix_app_r. }
  rewrite (copystat_dir _ _ _ ps ts es p2 t2 es2) by done.
  destruct (put_attr fs2 dl p2 t2 es2 (Z.land ps 4095) ts Hdne Hg2)
    as (Hg3 & [F3 A3] & Hb3).
  eexists. split; [done|]. split; [split|split].
  - intros q H1 H2. rewrite F3, F2, Hf1; [done|done|done| |done|done].
    intros c r _ ->. apply H1. by apply prefix_app_r.
  - intros q n Hq Hne Hg.
    destruct (Hk1 q n Hg) as (n1 & Hq1 & Ha1).
    destruct (A2 q n1 Hq Hq1) as (n2 & Hq2 & Ha2).
    destruct (A3 q n2 Hq Hne Hq2) as (n3 & Hq3 & Ha3).
    exists n3. split; [done|congruence].
  - intros r n Hr. destruct r as [|c r].
    + rewrite app_nil_r in *. rewrite Hs in Hr. injection Hr as <-.
      by exists (Dir (Z.land ps 4095) ts es2).
    + assert (c ∈ (map_to_list es).*1) as Hc.
      { apply elem_of_keys. rewrite get_app, Hs in Hr. simpl in Hr.
        by destruct (es !! c). }
      destruct (M2 c Hc) as [Ma _].
      destruct (Ma r n) as (n' & Hg' & Ha').
      { rewrite <- app_assoc. simpl. by rewrite Hsrc1. }
      exists n'. split; [|done]. rewrite Hb3 by done.
      by rewrite <- app_assoc in Hg'.
  - intros r n Hr Hnone. destruct r as [|c r].
    + rewrite app_nil_r in Hnone. congruence.
    + rewrite Hb3 by done.
      destruct (decide (c ∈ (map_to_list es).*1)) as [Hc|Hc].
      * destruct (M2 c Hc) as [_ Mb].
        destruct (Mb r n) as (n' & Hg' & Ha').
        { rewrite <- app_assoc. simpl. by rewrite Hdst1. }
        { rewrite <- app_assoc. simpl. by rewrite Hsrc1. }
        exists n'. split; [|done]. by rewrite <- app_assoc in Hg'.
      * exists n. split; [|done]. rewrite F2, Hdst1; [done|done| |].
        -- by intros H%prefix_app_same.
        -- intros c' r' Hc' Heq%app_inv_head. injection Heq as -> _. done.
Qed.

End Copying.

(** * The claims *)

(** ** The resolver *)





(** When canonicalization itself raises (a NUL in the path, a link that
    loops), [safe_path] keeps the joined path as it was written; its
    components start with those of the root, so the containment test accepts
    it, dot-dot components included. *)
Example safe_path_fallback_keeps_joined_path :
  safe_path sample_config sample_fs "loop/%2e%2e/%2e%2e/etc"
  = inl invalid_path
  ∧ safe_path sample_config sample_fs "loop/x/../y"
    = inr (mkPath true ["data"; "loop"; "x"; ".."; "y"]).
Proof. split; by vm_compute. Qed.




(** ** The metadata extractor *)

(** C4: a descriptor carries a size exactly when the entry is a regular
    file at that moment; a directory carries none, which is not the size
    zero; and the permissions are the three low octal digits of [st_mode],
    whatever its higher bits are (file type, set-id and sticky bits). *)
Theorem C4_size_and_permissions cfg fs p info :
  get_file_info cfg fs p = inr info →
  ∃ st, os_stat cfg fs p = inr st
    ∧ size info = (if S_ISREG (st_mode st) then Some (st_size st) else None)
    ∧ (S_ISDIR (st_mode st) = true →
         type info = "directory" ∧ size info = None ∧ size info ≠ Some 0)
    ∧ permissions info = octal3 (st_mode st mod 512)
    ∧ (∀ m, 64 ≤ m → last_chars 3 (oct m) = octal3 (m mod 512)).
Proof.
  unfold get_file_info.
  destruct (os_stat cfg fs p) as [e|st] eqn:Hst; [done|]. simpl.
  destruct (resolve cfg fs _) as [e|base]; [done|]. simpl.
  destruct (relative_to p base) as [e|rel]; [done|]. simpl.
  intros [= <-]. exists st. simpl.
  unfold is_file, is_dir. rewrite Hst.
  destruct (os_stat_inv _ _ _ _ Hst) as (l & n & _ & -> & _).
  split; [done|]. split; [done|]. split; [|split].
  - rewrite S_ISDIR_stat, S_ISREG_stat. by destruct n.
  - apply last_chars_oct. pose proof (stat_of_mode n) as [? _]. lia.
  - apply last_chars_oct.
Qed.

Lemma C4_witness :
  ∃ info st,
    get_file_info sample_config sample_fs (mkPath true ["data"; "a.bin"])
    = inr info
    ∧ st_mode st = 35309          (* 0o104755 *)
    ∧ size info = Some 2 ∧ permissions info = "755".
Proof.
  destruct (get_file_info sample_config sample_fs
              (mkPath true ["data"; "a.bin"])) as [e|info] eqn:H;
    [by vm_compute in H|].
  destruct (C4_size_and_permissions _ _ _ _ H) as (st & Hst & Hsz & _ & Hp & _).
  exists info, st. split; [done|].
  assert (st = mkStat 35309 2 6) as -> by (vm_compute in Hst; congruence).
  by repeat split.
Defined.

(** ** The directory lister *)




(** ** Reading a file *)




(** ** Writing onto a directory *)

(** C10: [write_file] does not look at what its target is; when the target
    is an existing directory, the parent is there already, opening the
    target for writing raises [IsADirectoryError], the answer is a [500],
    and the filesystem is exactly what it was. *)
Theorem C10_write_onto_directory cfg fs file_path d now request :
  safe_path cfg fs file_path = inr d →
  is_dir cfg fs d = true →
  write_file cfg now fs file_path request
  = (fs, inl (mkHTTP 500 (MsgExn "" (OSError EISDIR)))).
Proof.
  intros Hs Hd. unfold write_file, safe. rewrite Hs.
  rewrite (mkdir_parents_of_dir cfg _ _ _ d (safe_path_absolute _ _ _ _ Hs) Hd).
  destruct (is_dir_inv _ _ _ Hd) as (Hn & loc & p & t & es & Hw & Hg).
  unfold write_text, open_w. rewrite Hw. simpl. by rewrite Hg.
Qed.

Lemma C10_witness :
  write_file sample_config 100 sample_fs "sub" (mkWrite "sub" [104; 105] "utf-8")
  = (sample_fs, inl (mkHTTP 500 (MsgExn "" (OSError EISDIR)))).
Proof.
  apply (C10_write_onto_directory sample_config sample_fs "sub"
           (mkPath true ["data"; "sub"])); by vm_compute.
Defined.

(** ** Deleting the root *)

(** C9: the containment test accepts the root itself, so [delete] on an
    input that denotes the root (the empty input, [.], ...) goes through:
    the root is a directory, [shutil.rmtree] removes it with all it holds,
    and the answer is a success.  (The root is not the root directory of
    the whole filesystem here.) *)
Theorem C9_delete_root cfg fs base p t es file_path :
  resolve cfg fs (path_of (BASE_DIR cfg)) = inr base →
  get fs (parts base) = Some (Dir p t es) →
  parts base ≠ [] →
  parse_parts (lstrip SEP (unquote file_path)) = [] →
  safe_path cfg fs file_path = inr base
  ∧ delete_file_or_directory cfg fs file_path
    = (remove fs (parts base),
       inr ("Directory " +:+ file_path +:+ " deleted successfully"))
  ∧ (∀ r, get (remove fs (parts base)) (parts base ++ r) = None)
  ∧ parse_parts (lstrip SEP (unquote "")) = []
  ∧ parse_parts (lstrip SEP (unquote ".")) = [].
Proof.
  intros Hb Hd Hne Hrel.
  pose proof (safe_path_root _ _ _ _ _ _ _ Hb Hd Hrel) as Hs.
  destruct (resolve_clean _ _ _ _ Hb) as [Habs Hcl].
  split; [done|]. split; [|split; [|done]].
  - unfold delete_file_or_directory, safe. rewrite Hs.
    destruct base as [a l]. simpl in Habs, Hcl, Hd, Hne. subst a.
    rewrite (exists_found _ _ _ (Dir p t es)) by done.
    rewrite (is_dir_found _ _ _ (Dir p t es)) by done. simpl.
    by rewrite (rmtree_dir _ _ _ p t es).
  - intros r. by eapply get_remove_gone.
Qed.

Lemma C9_witness :
  (∃ fs', delete_file_or_directory sample_config sample_fs ""
          = (fs', inr "Directory  deleted successfully")
          ∧ get fs' ["data"] = None
          ∧ get fs' ["data"; "sub"; "x"] = None)
  ∧ ∃ fs', delete_file_or_directory sample_config sample_fs "."
           = (fs', inr "Directory . deleted successfully")
           ∧ get fs' ["data"] = None.
Proof.
  assert (resolve sample_config sample_fs (path_of "/data")
          = inr (mkPath true ["data"])) as Hb by (by vm_compute).
  assert (∃ es, get sample_fs ["data"] = Some (Dir 493 1 es)) as [es Hd]
    by (eexists; by vm_compute).
  split.
  - destruct (C9_delete_root sample_config sample_fs _ 493 1 es "" Hb Hd)
      as (_ & Hdel & Hgone & _); [done|done|].
    eexists. split; [exact Hdel|]. split.
    + apply (Hgone []).
    + apply (Hgone ["sub"; "x"]).
  - destruct (C9_delete_root sample_config sample_fs _ 493 1 es "." Hb Hd)
      as (_ & Hdel & Hgone & _); [done|done|].
    eexists. split; [exact Hdel|]. apply (Hgone []).
Defined.

(** ** Writing, then reading *)

(** The claim as worded: whatever the encoding asked for, reading gives the
    same content back with that encoding.  Written as Latin-1, [é] is the
    single byte [0xE9], which is not UTF-8: reading answers with the
    description of a binary file.  Written as UTF-8, a carriage return
    followed by a line feed is read back as a line feed alone. *)
Lemma C7_counterexample :
  (∃ fs', write_file sample_config 100 sample_fs "new/dir/f.txt"
            (mkWrite "new/dir/f.txt" [233] "latin-1")
          = (fs', inr "File new/dir/f.txt written successfully")
          ∧ get fs' ["data"; "new"; "dir"; "f.txt"] = Some (File 420 100 [233])
          ∧ read_file sample_config fs' "new/dir/f.txt" false
            = inr (JSONResponse "Binary file cannot be displayed as text"
                     None 1 "/files/new/dir/f.txt/content?download=true"))
  ∧ (∃ fs', write_file sample_config 100 sample_fs "new/dir/f.txt"
              (mkWrite "new/dir/f.txt" [97; 13; 10] "utf-8")
            = (fs', inr "File new/dir/f.txt written successfully")
            ∧ read_file sample_config fs' "new/dir/f.txt" false
              = inr (FileContent [97; 10] "utf-8")).
Proof.
  split.
  - eexists. split; [by vm_compute|]. split; by vm_compute.
  - eexists. split; [by vm_compute|]. by vm_compute.
Qed.

(** C7, amended: let the input name, with real names only, a place
    [anc/missing.../f] below the root, where [anc] is an existing directory,
    the directories [missing...] do not exist yet and, when none is missing,
    [f] is free or a regular file.  Writing a text that has a UTF-8 form,
    with the encoding [utf-8], succeeds: the missing directories are made,
    the file holds the UTF-8 bytes of the text whatever it held before, and
    reading it afterwards answers with the encoding [utf-8] and the text in
    which [\r\n] and [\r] are read as [\n]: the very text when it has no
    carriage return. *)
Theorem C7_write_then_read cfg fs now file_path request
    rel anc missing f pa ta ea bytes :
  is_absolute (path_of (BASE_DIR cfg)) = true →
  parse_parts (lstrip SEP (unquote file_path)) = rel →
  parts (path_of (BASE_DIR cfg)) ++ rel = anc ++ missing ++ [f] →
  clean (anc ++ missing ++ [f]) →
  get fs anc = Some (Dir pa ta ea) →
  match missing with
  | m :: _ => ea !! m = None
  | [] => ea !! f = None ∨ ∃ pm t d, ea !! f = Some (File pm t d)
  end →
  (0 < recursion_limit cfg)%nat →
  (length missing ≤ recursion_limit cfg)%nat →
  encoding request = "utf-8" →
  utf8_encode (content request) = Some bytes →
  ∃ fs' pm,
    write_file cfg now fs file_path request
    = (fs', inr ("File " +:+ file_path +:+ " written successfully"))
    ∧ (∀ k, ∃ p t es, get fs' (anc ++ take k missing) = Some (Dir p t es))
    ∧ get fs' (anc ++ missing ++ [f]) = Some (File pm now bytes)
    ∧ read_file cfg fs' file_path false
      = inr (FileContent (universal_newlines (content request)) "utf-8")
    ∧ (13 ∉ content request →
         read_file cfg fs' file_path false
         = inr (FileContent (content request) "utf-8")).
Proof.
  intros Habs Hrel Hd Hc Hanc Hm Hlim Hlen Henc Hbytes.
  assert (linkfree fs (anc ++ missing ++ [f])) as Hlf.
  { assert (linkfree fs anc) as Hla
      by by apply (linkfree_of_get _ _ (Dir pa ta ea)).
    destruct missing as [|m ms].
    - destruct Hm as [Hf|(pm & t & d & Hf)].
      + apply linkfree_below_None; [done|]. by eapply get_snoc_None.
      + apply (linkfree_of_get _ _ (File pm t d)); [|done]. apply get_snoc.
        exists pa, ta, ea. split; [done|]. exact Hf.
    - simpl. apply linkfree_below_None; [done|]. by eapply get_snoc_None. }
  assert (safe_path cfg fs file_path = inr (mkPath true (anc ++ missing ++ [f])))
    as Hs.
  { rewrite <- Hd. apply safe_path_plain; try done; by rewrite Hd. }
  rewrite app_assoc in Hc. pose proof Hc as [Hc1 _]%clean_app.
  destruct (mkdir_parents_creates cfg (recursion_limit cfg) now fs anc missing
              pa ta ea Hc1 Hanc)
    as (fs1 & p1 & t1 & es1 & Hmk & Hg1 & He1 & _ & Hsame);
    [by destruct missing|lia|].
  destruct (write_text_file cfg now fs1 (anc ++ missing) f p1 t1 es1
              (content request) bytes Hc Hg1) as (fs2 & pm & Hw & Hg2);
    [|done|].
  { destruct missing as [|m ms]; [|left; by rewrite He1].
    rewrite (Hsame eq_refl), app_nil_r, Hanc in Hg1.
    by injection Hg1 as <- <- <-. }
  exists fs2, pm. rewrite <- app_assoc in Hg2, Hc.
  assert (safe_path cfg fs2 file_path
          = inr (mkPath true (anc ++ missing ++ [f]))) as Hs2.
  { rewrite <- Hd. apply safe_path_plain; try done; rewrite Hd; [done|].
    by apply (linkfree_of_get _ _ (File pm now bytes)). }
  assert (read_file cfg fs2 file_path false
          = inr (FileContent (universal_newlines (content request)) "utf-8"))
    as Hread.
  { unfold read_file, safe. rewrite Hs2. simpl.
    rewrite (exists_found _ _ _ (File pm now bytes)) by done.
    rewrite (is_file_found _ _ _ (File pm now bytes)) by done. simpl.
    rewrite (read_text_file _ _ _ pm now bytes) by done.
    by rewrite (utf8_round_trip _ _ Hbytes). }
  split; [|split; [|split; [done|split; [done|]]]].
  - unfold write_file, safe. rewrite Hs.
    rewrite app_assoc, parent_snoc, Hmk, Henc, <- app_assoc.
    rewrite app_assoc, Hw. done.
  - intros k.
    rewrite <- (take_drop k missing), <- !app_assoc, app_assoc in Hg2.
    eapply get_prefix_Dir; [exact Hg2|]. by destruct (drop k missing).
  - intros Hcr. by rewrite Hread, universal_newlines_id.
Qed.

Lemma C7_witness :
  ∃ fs' pm,
    write_file sample_config 100 sample_fs "sub/n1/n2/hello.txt"
      (mkWrite "sub/n1/n2/hello.txt" [72; 233; 8364] "utf-8")
    = (fs', inr "File sub/n1/n2/hello.txt written successfully")
    ∧ get fs' ["data"; "sub"; "n1"; "n2"; "hello.txt"]
      = Some (File pm 100 [72; 195; 169; 226; 130; 172])
    ∧ read_file sample_config fs' "sub/n1/n2/hello.txt" false
      = inr (FileContent [72; 233; 8364] "utf-8").
Proof.
  assert (∃ es, get sample_fs ["data"; "sub"] = Some (Dir 493 7 es)
                ∧ es !! "n1" = None) as (es & Hg & He)
    by (eexists; split; by vm_compute).
  destruct (C7_write_then_read sample_config sample_fs 100 "sub/n1/n2/hello.txt"
              (mkWrite "sub/n1/n2/hello.txt" [72; 233; 8364] "utf-8")
              ["sub"; "n1"; "n2"; "hello.txt"] ["data"; "sub"] ["n1"; "n2"]
              "hello.txt" 493 7 es [72; 195; 169; 226; 130; 172])
    as (fs' & pm & Hw & _ & Hf & _ & Hr).
  - by vm_compute.
  - by vm_compute.
  - by vm_compute.
  - repeat constructor; by vm_compute.
  - exact Hg.
  - exact He.
  - simpl. lia.
  - simpl. lia.
  - reflexivity.
  - by vm_compute.
  - exists fs', pm. split; [done|]. split; [done|]. apply Hr.
    intros H. repeat (apply elem_of_cons in H as [H|H]; [done|]).
    by apply elem_of_nil in H.
Defined.
